(** * TeachingReact: local state transitions of the demo components

    A shallow embedding of the event handlers of the React demo
    components, and the properties of their state transitions.

    Conventions of the embedding.
    - A component's [useState] cells are the fields of a record.
    - An event handler is a closure created by a render: it reads the
      state cells of that render (its snapshot) and enqueues updates.
      A handler is therefore a function from the snapshot to a list of
      queued updates; [commit] applies the queue to the current state.
      React re-renders between two user events, so for an event the
      snapshot is the current state ([dispatch]).
    - Values the environment supplies ([Date.now()], [e.target.value],
      the handle returned by [setInterval], the outcome of [fetch]) are
      arguments of the event.
    - Integers held in JS numbers (counters, timestamps, identifiers)
      are [Z]: the handlers only add or subtract small constants and
      compare with [===], which is exact on integers of magnitude
      below 2^53; what a number does beyond that is not modelled.
    - A JS string is the list of its UTF-16 code units. *)

From Stdlib Require Import ZArith QArith String Ascii.
From stdpp Require Import base decidable list gmap pretty.

#[local] Open Scope Z_scope.

(** ** JavaScript strings *)

Module Js.

Abbreviation jsstring := (list N).

(** A literal of the source, as code units. *)
Definition lit (s : string) : jsstring :=
  N_of_ascii <$> list_ascii_of_string s.

(** [WhiteSpace] and [LineTerminator] code points of ECMAScript, the
    characters [String.prototype.trim] strips. *)
Definition isWhiteSpace (c : N) : bool :=
  ((9 <=? c) && (c <=? 13) || (c =? 32) || (c =? 160) || (c =? 5760)
   || (8192 <=? c) && (c <=? 8202) || (c =? 8232) || (c =? 8233)
   || (c =? 8239) || (c =? 8287) || (c =? 12288) || (c =? 65279))%N.

Fixpoint trimStart (s : jsstring) : jsstring :=
  match s with
  | c :: s' => if isWhiteSpace c then trimStart s' else s
  | [] => []
  end.

Definition trimEnd (s : jsstring) : jsstring :=
  reverse (trimStart (reverse s)).

Definition trim (s : jsstring) : jsstring := trimEnd (trimStart s).

(** [ToBoolean] of a string: only the empty string is falsy. *)
Definition truthy (s : jsstring) : bool :=
  match s with [] => false | _ => true end.

(** [s === ''] *)
Definition isEmpty (s : jsstring) : bool := negb (truthy s).

(** The text is empty or made of whitespace only. *)
Definition blank (s : jsstring) : Prop := Forall (λ c, isWhiteSpace c = true) s.

End Js.

Import Js.

(** ** Queued state updates *)

Section Updates.
Context {St : Type}.

(** The queue of a handler run, applied oldest first. *)
Definition commit (queue : list (St → St)) (s : St) : St :=
  foldl (λ st u, u st) s queue.

(** An event whose handler was created by the latest render. *)
Definition dispatch (handler : St → list (St → St)) (s : St) : St :=
  commit (handler s) s.

End Updates.

(** ** StateDemo: counter, text input, toggle, user object, todo list *)

Module Todo.
Record t := mk { id : Z; text : jsstring; completed : bool }.
End Todo.

Module StateDemo.

Record User := mkUser { name : jsstring; age : Z; email : jsstring }.

(** One field per [useState] cell of the component. *)
Record State := mkState {
  count : Z;
  text : jsstring;
  isOn : bool;
  user : User;
  todos : list Todo.t;
  newTodo : jsstring;
  bgColor : jsstring;
  textColor : jsstring
}.

Definition init : State :=
  {| count := 0;
     text := lit "";
     isOn := false;
     user := {| name := lit "John Doe"; age := 25; email := lit "john@example.com" |};
     todos := [ Todo.mk 1 (lit "Learn React") true;
                Todo.mk 2 (lit "Master State") false ];
     newTodo := lit "";
     bgColor := lit "#e3f2fd";
     textColor := lit "#1976d2" |}.

(** The setters returned by [useState], called with a value. *)
Definition setCount (v : Z) (s : State) : State :=
  mkState v (text s) (isOn s) (user s) (todos s) (newTodo s) (bgColor s) (textColor s).
Definition setText (v : jsstring) (s : State) : State :=
  mkState (count s) v (isOn s) (user s) (todos s) (newTodo s) (bgColor s) (textColor s).
Definition setIsOn (v : bool) (s : State) : State :=
  mkState (count s) (text s) v (user s) (todos s) (newTodo s) (bgColor s) (textColor s).
Definition setUser (v : User) (s : State) : State :=
  mkState (count s) (text s) (isOn s) v (todos s) (newTodo s) (bgColor s) (textColor s).
Definition setTodos (v : list Todo.t) (s : State) : State :=
  mkState (count s) (text s) (isOn s) (user s) v (newTodo s) (bgColor s) (textColor s).
Definition setNewTodo (v : jsstring) (s : State) : State :=
  mkState (count s) (text s) (isOn s) (user s) (todos s) v (bgColor s) (textColor s).
Definition setBgColor (v : jsstring) (s : State) : State :=
  mkState (count s) (text s) (isOn s) (user s) (todos s) (newTodo s) v (textColor s).
Definition setTextColor (v : jsstring) (s : State) : State :=
  mkState (count s) (text s) (isOn s) (user s) (todos s) (newTodo s) (bgColor s) v.

(** *** Event handlers.  The argument [r] is the state of the render
    that created the closure; console output is not part of the state
    and is left out. *)

Definition incrementCount (r : State) : list (State → State) :=
  [ setCount (count r + 1) ].

Definition decrementCount (r : State) : list (State → State) :=
  [ setCount (count r - 1) ].

Definition resetCount (r : State) : list (State → State) :=
  [ setCount 0 ].

(** [setCount(prevCount => prevCount + 10)]: reads the queued state. *)
Definition incrementByTen (r : State) : list (State → State) :=
  [ λ st, setCount (count st + 10) st ].

Definition handleTextChange (value : jsstring) (r : State) : list (State → State) :=
  [ setText value ].

Definition toggleSwitch (r : State) : list (State → State) :=
  [ setIsOn (negb (isOn r)) ].

Definition updateUserName (newName : jsstring) (r : State) : list (State → State) :=
  [ setUser {| name := newName; age := age (user r); email := email (user r) |} ].

Definition updateUserAge (r : State) : list (State → State) :=
  [ λ st, setUser {| name := name (user st); age := age (user st) + 1;
                     email := email (user st) |} st ].

(** [now] is the value of [Date.now()]. *)
Definition addTodo (now : Z) (r : State) : list (State → State) :=
  if isEmpty (trim (newTodo r)) then []
  else
    let newTodoItem := Todo.mk now (newTodo r) false in
    [ setTodos (todos r ++ [newTodoItem]); setNewTodo (lit "") ].

Definition toggleItem (id : Z) (todo : Todo.t) : Todo.t :=
  if decide (Todo.id todo = id)
  then Todo.mk (Todo.id todo) (Todo.text todo) (negb (Todo.completed todo))
  else todo.

Definition toggleTodo (id : Z) (r : State) : list (State → State) :=
  [ setTodos (toggleItem id <$> todos r) ].

Definition deleteTodo (id : Z) (r : State) : list (State → State) :=
  [ setTodos (filter (λ todo, Todo.id todo ≠ id) (todos r)) ].

(** The user events of the component and the handler bound to each. *)
Inductive Event :=
| ClickIncrement | ClickDecrement | ClickReset | ClickPlusTen
| TextChange (value : jsstring)
| ClickToggle
| NameBlur (value : jsstring) | ClickIncreaseAge
| NewTodoChange (value : jsstring)
| ClickAdd (now : Z)
| CheckTodo (id : Z) | ClickDelete (id : Z)
| BgColorChange (value : jsstring) | TextColorChange (value : jsstring).

Definition handler (e : Event) : State → list (State → State) :=
  match e with
  | ClickIncrement => incrementCount
  | ClickDecrement => decrementCount
  | ClickReset => resetCount
  | ClickPlusTen => incrementByTen
  | TextChange v => handleTextChange v
  | ClickToggle => toggleSwitch
  | NameBlur v => updateUserName v
  | ClickIncreaseAge => updateUserAge
  | NewTodoChange v => λ _, [ setNewTodo v ]
  | ClickAdd now => addTodo now
  | CheckTodo id => toggleTodo id
  | ClickDelete id => deleteTodo id
  | BgColorChange v => λ _, [ setBgColor v ]
  | TextColorChange v => λ _, [ setTextColor v ]
  end.

Definition step (s : State) (e : Event) : State := dispatch (handler e) s.

(** A session: the events in the order they happen, a render between
    any two of them. *)
Definition run (es : list Event) (s : State) : State := foldl step s es.

(** What the render shows of the first three cards. *)
Record View := mkView {
  countNumber : Z;          (* <h1 className="count-number">{count}</h1> *)
  youTyped : jsstring;      (* {text || '(nothing yet)'} *)
  characterCount : nat;     (* {text.length} *)
  switchIsOn : bool         (* {isOn ? 'ON' : 'OFF'} *)
}.

Definition render (s : State) : View :=
  {| countNumber := count s;
     youTyped := if truthy (text s) then text s else lit "(nothing yet)";
     characterCount := length (text s);
     switchIsOn := isOn s |}.

End StateDemo.

(** ** KeyDemo: the keyed list of the reconciliation demo *)

Module KeyDemo.

Record Item := mkItem { id : Z; text : jsstring; color : jsstring }.

(** The single [useState] cell [items]. *)
Definition init : list Item :=
  [ mkItem 1 (lit "Item 1") (lit "#e3f2fd");
    mkItem 2 (lit "Item 2") (lit "#f3e5f5");
    mkItem 3 (lit "Item 3") (lit "#e8f5e9") ].

(** [now] is [Date.now()]; [hsl] is the colour string built from
    [Math.random()].  The console lines are left out. *)
Definition addItem (now : Z) (hsl : jsstring) (items : list Item)
  : list (list Item → list Item) :=
  let newItem :=
    {| id := now;
       text := lit "Item " ++ lit (pretty (N.of_nat (length items + 1)));
       color := hsl |} in
  [ λ _, items ++ [newItem] ].

Definition removeItem (id' : Z) (items : list Item)
  : list (list Item → list Item) :=
  [ λ _, filter (λ item, id item ≠ id') items ].

End KeyDemo.

(** ** CommonPatternsExample: the second todo list *)

Module CommonPatterns.

Record Todo := mkTodo { id : Z; text : jsstring; done : bool }.

Record State := mkState { todos : list Todo; input : jsstring }.

Definition init : State := {| todos := []; input := lit "" |}.

Definition setTodos (v : list Todo) (s : State) : State := mkState v (input s).
Definition setInput (v : jsstring) (s : State) : State := mkState (todos s) v.

Definition addTodo (now : Z) (r : State) : list (State → State) :=
  if truthy (trim (input r))
  then [ setTodos (todos r ++ [ {| id := now; text := input r; done := false |} ]);
         setInput (lit "") ]
  else [].

Definition toggleItem (id' : Z) (todo : Todo) : Todo :=
  if decide (id todo = id')
  then {| id := id todo; text := text todo; done := negb (done todo) |}
  else todo.

Definition toggleTodo (id' : Z) (r : State) : list (State → State) :=
  [ setTodos (toggleItem id' <$> todos r) ].

Definition deleteTodo (id' : Z) (r : State) : list (State → State) :=
  [ setTodos (filter (λ todo, id todo ≠ id') (todos r)) ].

End CommonPatterns.

(** ** ComplexObjectStateExample: nested object state *)

Module ComplexObject.

Record Address := mkAddress { street : jsstring; city : jsstring; zipCode : jsstring }.
Record Preferences := mkPreferences { theme : jsstring; notifications : bool }.
Record User := mkUser {
  name : jsstring;
  email : jsstring;
  address : Address;
  preferences : Preferences
}.

(** The single [useState] cell [user]. *)
Definition init : User :=
  {| name := lit "John Doe";
     email := lit "john@example.com";
     address := {| street := lit "123 Main St"; city := lit "New York";
                   zipCode := lit "10001" |};
     preferences := {| theme := lit "light"; notifications := true |} |}.

(** [{ ...user, name: e.target.value }] *)
Definition updateName (value : jsstring) (user : User) : list (User → User) :=
  [ λ _, {| name := value; email := email user; address := address user;
            preferences := preferences user |} ].

(** [{ ...user, address: { ...user.address, city: e.target.value } }] *)
Definition updateCity (value : jsstring) (user : User) : list (User → User) :=
  [ λ _, {| name := name user; email := email user;
            address := {| street := street (address user); city := value;
                          zipCode := zipCode (address user) |};
            preferences := preferences user |} ].

Definition toggleNotifications (user : User) : list (User → User) :=
  [ λ _, {| name := name user; email := email user; address := address user;
            preferences :=
              {| theme := theme (preferences user);
                 notifications := negb (notifications (preferences user)) |} |} ].

End ComplexObject.
(** ** TimerExample: start/stop timer with the interval handle in a ref *)

Module TimerExample.

(** The runtime's table of repeating timers: [setInterval] hands out
    handles, positive integers, and [active] holds those not yet
    cleared. *)
Record Timers := mkTimers { nextHandle : positive; active : gset positive }.

Definition setInterval (t : Timers) : positive * Timers :=
  (nextHandle t,
   {| nextHandle := (nextHandle t + 1)%positive;
      active := {[ nextHandle t ]} ∪ active t |}).

(** [clearInterval(null)] and clearing a handle that is not active do
    nothing. *)
Definition clearInterval (h : option positive) (t : Timers) : Timers :=
  match h with
  | Some i => {| nextHandle := nextHandle t; active := active t ∖ {[ i ]} |}
  | None => t
  end.

Inductive LogLine :=
| LogStarting
| LogStopping (id : option positive)
| LogResetting.

(** The [useState] cells. *)
Record State := mkState { seconds : Z; isRunning : bool }.

(** The cells, the ref, and what the component touches outside itself. *)
Record World := mkWorld {
  state : State;
  intervalRef : option positive;
  timers : Timers;
  console : list LogLine;
  mounted : bool
}.

Definition init : World :=
  {| state := {| seconds := 0; isRunning := false |};
     intervalRef := None;
     timers := {| nextHandle := 1; active := ∅ |};
     console := [];
     mounted := true |}.

Definition setSeconds (v : Z) (w : World) : World :=
  mkWorld (mkState v (isRunning (state w))) (intervalRef w) (timers w) (console w) (mounted w).
Definition setIsRunning (v : bool) (w : World) : World :=
  mkWorld (mkState (seconds (state w)) v) (intervalRef w) (timers w) (console w) (mounted w).
Definition setRef (v : option positive) (w : World) : World :=
  mkWorld (state w) v (timers w) (console w) (mounted w).
Definition setTimers (t : Timers) (w : World) : World :=
  mkWorld (state w) (intervalRef w) t (console w) (mounted w).
Definition log (l : LogLine) (w : World) : World :=
  mkWorld (state w) (intervalRef w) (timers w) (console w ++ [l]) (mounted w).
Definition setMounted (v : bool) (w : World) : World :=
  mkWorld (state w) (intervalRef w) (timers w) (console w) v.

(** *** Handlers.  [r] holds the cells of the render that created the
    closure.  The ref and the timer table are written at once; the
    values the handlers set in the cells do not depend on the cells, so
    they are written at once too. *)

Definition startTimer (r : State) (w : World) : World :=
  if negb (isRunning r) then
    let w1 := log LogStarting w in
    let w2 := setIsRunning true w1 in
    let '(h, t) := setInterval (timers w2) in
    setRef (Some h) (setTimers t w2)
  else w.

Definition stopTimer (r : State) (w : World) : World :=
  let w1 := log (LogStopping (intervalRef w)) w in
  let w2 := setIsRunning false w1 in
  setTimers (clearInterval (intervalRef w2) (timers w2)) w2.

Definition resetTimer (r : State) (w : World) : World :=
  let w1 := log LogResetting w in
  let w2 := stopTimer r w1 in
  setSeconds 0 w2.

(** The interval callback, [setSeconds(s => s + 1)]. *)
Definition tick (w : World) : World := setSeconds (seconds (state w) + 1) w.

(** The cleanup of the mount effect. *)
Definition cleanup (w : World) : World :=
  match intervalRef w with
  | Some h => setTimers (clearInterval (Some h) (timers w)) w
  | None => w
  end.

Inductive Event :=
| ClickStart | ClickStop | ClickReset
| Fire (h : positive)
| Unmount.

(** One event, handled by the closures of the latest render.  A timer
    fires only while its handle is active; an unmounted component
    handles nothing. *)
Definition step (w : World) (e : Event) : World :=
  if mounted w then
    match e with
    | ClickStart => startTimer (state w) w
    | ClickStop => stopTimer (state w) w
    | ClickReset => resetTimer (state w) w
    | Fire h => if decide (h ∈ active (timers w)) then tick w else w
    | Unmount => setMounted false (cleanup w)
    end
  else w.

Definition run (es : list Event) (w : World) : World := foldl step w es.

Definition reachable (w : World) : Prop := ∃ es, w = run es init.

End TimerExample.

(** ** DataFetchingEffect: fetch in an effect, with a loading flag *)

Module DataFetching.

(** A parsed JSON value, what [response.json()] resolves to.  A number
    is the rational its double denotes. *)
#[local] Set Warnings "-register-all".
Inductive Json :=
| JNull
| JBool (b : bool)
| JNumber (v : Q)
| JString (s : jsstring)
| JArray (items : list Json)
| JObject (members : list (jsstring * Json)).

(** The values a promise of the chain can reject with. *)
Inductive JsError :=
| FetchFailed        (* [fetch] rejects: no response was obtained *)
| BodyNotJson        (* [response.json()] rejects: SyntaxError *)
| ReadOfNull.        (* property read on [null]: TypeError *)

Inductive Completion (A : Type) :=
| Normal (a : A)
| Throw (e : JsError).
Arguments Normal {A} a.
Arguments Throw {A} e.

(** Own property of a parsed object; when a key was repeated in the
    text the last member stands. *)
Fixpoint member (key : jsstring) (ms : list (jsstring * Json)) : option Json :=
  match ms with
  | [] => None
  | (k, v) :: ms' =>
      match member key ms' with
      | Some v' => Some v'
      | None => if decide (k = key) then Some v else None
      end
  end.

(** [data.name] for [name] among [name], [email], [company]: [None] is
    [undefined].  Reading a property of [null] throws. *)
Definition getProp (key : jsstring) (data : Json) : Completion (option Json) :=
  match data with
  | JNull => Throw ReadOfNull
  | JObject ms => Normal (member key ms)
  | _ => Normal None
  end.

(** [ToBoolean] *)
Definition truthy (v : Json) : bool :=
  match v with
  | JNull => false
  | JBool b => b
  | JNumber q => negb (Qnum q =? 0)
  | JString s => Js.truthy s
  | JArray _ | JObject _ => true
  end.

(** How one [fetch] ends: no response at all, or a response with its
    status and its body, [None] when the body is not JSON text.  The
    component does not read the status. *)
Inductive Outcome :=
| NoResponse
| Response (status : Z) (body : option Json).

(** The value of [userId]: the number [1] at first, then the string
    [e.target.value]. *)
Inductive UserId :=
| IdNumber (n : Z)
| IdString (s : jsstring).

#[global] Instance UserId_eq_dec : EqDecision UserId.
Proof. solve_decision. Defined.

Inductive LogLine :=
| LogFetching (userId : UserId)            (* console.log *)
| LogFetched (name : option Json)          (* console.log *)
| LogError (error : JsError).              (* console.error *)

(** The [useState] cells; [user = None] is [null]. *)
Record State := mkState { user : option Json; loading : bool; userId : UserId }.

(** [removed]: a render has thrown and React, finding no error
    boundary, has taken the whole tree off the page. *)
Record World := mkWorld {
  state : State;
  console : list LogLine;
  inFlight : nat;             (* fetches started and not yet settled *)
  removed : bool
}.

Definition setUser (v : option Json) (w : World) : World :=
  mkWorld (mkState v (loading (state w)) (userId (state w))) (console w) (inFlight w)
          (removed w).
Definition setLoading (v : bool) (w : World) : World :=
  mkWorld (mkState (user (state w)) v (userId (state w))) (console w) (inFlight w)
          (removed w).
Definition setUserId (v : UserId) (w : World) : World :=
  mkWorld (mkState (user (state w)) (loading (state w)) v) (console w) (inFlight w)
          (removed w).
Definition log (l : LogLine) (w : World) : World :=
  mkWorld (state w) (console w ++ [l]) (inFlight w) (removed w).
Definition setInFlight (n : nat) (w : World) : World :=
  mkWorld (state w) (console w) n (removed w).

(** Before the mount effect has run. *)
Definition init : World :=
  {| state := {| user := None; loading := false; userId := IdNumber 1 |};
     console := [];
     inFlight := 0;
     removed := false |}.

(** The effect body up to the call of [fetch]. *)
Definition effect (w : World) : World :=
  let w1 := log (LogFetching (userId (state w))) w in
  let w2 := setLoading true w1 in
  setInFlight (S (inFlight w2)) w2.

(** [fetch(...).then(response => response.json())] *)
Definition responseJson (o : Outcome) : Completion Json :=
  match o with
  | NoResponse => Throw FetchFailed
  | Response _ None => Throw BodyNotJson
  | Response _ (Some data) => Normal data
  end.

(** The second [.then] handler.  [data.name] is evaluated before
    anything is logged or set. *)
Definition onData (data : Json) (w : World) : Completion World :=
  match getProp (lit "name") data with
  | Throw e => Throw e
  | Normal name =>
      let w1 := log (LogFetched name) w in
      let w2 := setUser (Some data) w1 in
      Normal (setLoading false w2)
  end.

(** The [.catch] handler. *)
Definition onError (error : JsError) (w : World) : World :=
  let w1 := log (LogError error) w in
  setLoading false w1.

(** The promise the [.catch] is attached to. *)
Definition thenChain (o : Outcome) (w : World) : Completion World :=
  match responseJson o with
  | Throw e => Throw e
  | Normal data => onData data w
  end.

(** One fetch settles with outcome [o]: what the handlers of the chain
    log and set. *)
Definition settle (o : Outcome) (w : World) : World :=
  match thenChain o w with
  | Normal w' => w'
  | Throw e => onError e w
  end.

(** [user.company?.name] *)
Definition companyName (u : Json) : option Json :=
  match getProp (lit "company") u with
  | Normal (Some c) =>
      match getProp (lit "name") c with
      | Normal n => n
      | Throw _ => None
      end
  | _ => None
  end.

Definition prop (key : jsstring) (u : Json) : option Json :=
  match getProp key u with
  | Normal v => v
  | Throw _ => None
  end.

(** A value React accepts between tags: strings and numbers are shown,
    [null], [undefined] and booleans show nothing, an array is accepted
    when its items are, and an object makes the render throw. *)
Fixpoint validChild (v : Json) : bool :=
  match v with
  | JObject _ => false
  | JArray items => forallb validChild items
  | _ => true
  end.

Definition validChildOrUndefined (v : option Json) : bool :=
  match v with
  | Some v' => validChild v'
  | None => true
  end.

(** What the render puts below the input: the loading line, the user
    card, or nothing; or the render throws. *)
Inductive View :=
| ShowLoading
| ShowUser (name email company : option Json)
| ShowNothing
| RenderThrows.

Definition render (s : State) : View :=
  if loading s then ShowLoading
  else
    match user s with
    | Some u =>
        if truthy u
        then
          if validChildOrUndefined (prop (lit "name") u)
             && validChildOrUndefined (prop (lit "email") u)
             && validChildOrUndefined (companyName u)
          then ShowUser (prop (lit "name") u) (prop (lit "email") u) (companyName u)
          else RenderThrows
        else ShowNothing
    | None => ShowNothing
    end.

(** The render after the cells were set.  When it throws, the new cells
    are never committed and the tree is removed; what the handlers
    logged and the number of fetches in flight stay. *)
Definition commitRender (before after : World) : World :=
  match render (state after) with
  | RenderThrows => mkWorld (state before) (console after) (inFlight after) true
  | _ => after
  end.

(** A fetch settles after the tree was removed: the handlers of the
    chain run and log, and their setters do nothing. *)
Definition settleRemoved (o : Outcome) (w : World) : World :=
  mkWorld (state w) (console (settle o w)) (inFlight w) (removed w).

Inductive Event :=
| Mount
| ChangeUserId (value : jsstring)
| Settle (o : Outcome).

(** The effect runs after the first render and after a render in which
    [userId] differs from the one before.  Once the tree is removed
    there is no input to change and no effect to run; fetches in flight
    still settle. *)
Definition step (w : World) (e : Event) : World :=
  if removed w then
    match e with
    | Settle o =>
        match inFlight w with
        | O => w
        | S n => settleRemoved o (setInFlight n w)
        end
    | _ => w
    end
  else
    match e with
    | Mount => commitRender w (effect w)
    | ChangeUserId v =>
        if decide (userId (state w) = IdString v) then w
        else commitRender w (effect (setUserId (IdString v) w))
    | Settle o =>
        match inFlight w with
        | O => w
        | S n => commitRender (setInFlight n w) (settle o (setInFlight n w))
        end
    end.

Definition run (es : list Event) (w : World) : World := foldl step w es.

End DataFetching.

(** ** Measures of a session *)

Module Session.
Import StateDemo.

#[global] Instance Event_eq_dec : EqDecision Event.
Proof. solve_decision. Defined.

(** The number of clicks on [+1] and on [-1]. *)
Definition increments (es : list Event) : nat :=
  length (filter (λ e, e = ClickIncrement) es).
Definition decrements (es : list Event) : nat :=
  length (filter (λ e, e = ClickDecrement) es).

(** The events that write the counter other than by one step. *)
Definition jumps (e : Event) : Prop := e = ClickReset ∨ e = ClickPlusTen.

(** The value of the text input after the last change event. *)
Definition lastTyped (es : list Event) : jsstring :=
  foldl (λ acc e, match e with TextChange v => v | _ => acc end) (lit "") es.

End Session.

(** ** A session in which the clock repeats *)

Module SameClock.
Import StateDemo.

(** A reading of [Date.now()]. *)
Definition clock : Z := 1700000000000.

(** "a" was added at [clock]; "b" is typed and not yet added. *)
Definition typed : State :=
  run [ NewTodoChange (lit "a"); ClickAdd clock; NewTodoChange (lit "b") ] init.

(** "b" is added while [Date.now()] still reads [clock]. *)
Definition added : State := step typed (ClickAdd clock).

(** The same for the keyed list: two clicks on "Add Item" at [clock]. *)
Definition items1 : list KeyDemo.Item :=
  dispatch (KeyDemo.addItem clock (lit "hsl(0, 70%, 85%)")) KeyDemo.init.
Definition items2 : list KeyDemo.Item :=
  dispatch (KeyDemo.addItem clock (lit "hsl(180, 70%, 85%)")) items1.

End SameClock.

(** ** The timer's bookkeeping *)

Module TimerInvariant.
Import TimerExample.

(** While the component is mounted and running, the one active
    interval is the one whose handle the ref holds; otherwise none is
    active. *)
Definition tracked (w : World) : Prop :=
  if mounted w && isRunning (state w)
  then ∃ h, intervalRef w = Some h ∧ active (timers w) = {[ h ]}
  else active (timers w) = ∅.

End TimerInvariant.

(** ** StateDemo: the word count of the text card *)

Module WordCount.

(** [s.split(/\s+/)]: the pieces of [s] between its maximal runs of
    whitespace ([\s] is the set [trim] strips).  [inRun] holds while the
    characters just read are a separator; [piece] is the piece being
    read, last character first.  A separator at either end of [s]
    leaves an empty piece there, and the empty string gives one empty
    piece. *)
Fixpoint splitRuns (inRun : bool) (piece : jsstring) (s : jsstring) : list jsstring :=
  match s with
  | [] => [reverse piece]
  | c :: s' =>
      if isWhiteSpace c
      then if inRun then splitRuns true [] s'
           else reverse piece :: splitRuns true [] s'
      else splitRuns false (c :: piece) s'
  end.

Definition split (s : jsstring) : list jsstring := splitRuns false [] s.

(** [text.trim() === '' ? 0 : text.trim().split(/\s+/).length] *)
Definition wordCount (text : jsstring) : nat :=
  if isEmpty (trim text) then 0%nat else length (split (trim text)).

(** The words of a text, counted where they begin: at a character that
    is not whitespace and comes first or after whitespace. *)
Fixpoint wordStarts (afterSpace : bool) (s : jsstring) : nat :=
  match s with
  | [] => 0%nat
  | c :: s' =>
      if isWhiteSpace c then wordStarts true s'
      else ((if afterSpace then 1 else 0) + wordStarts false s')%nat
  end.

Definition words (s : jsstring) : nat := wordStarts true s.

(** Whether the text read so far ends in whitespace. *)
Fixpoint endsInSpace (afterSpace : bool) (s : jsstring) : bool :=
  match s with
  | [] => afterSpace
  | c :: s' => endsInSpace (isWhiteSpace c) s'
  end.

End WordCount.

(** ** StateDemo: further measures of a session *)

Module SessionMore.
Import StateDemo.

Definition plusTens (es : list Event) : nat :=
  length (filter (λ e, e = ClickPlusTen) es).
Definition ageClicks (es : list Event) : nat :=
  length (filter (λ e, e = ClickIncreaseAge) es).

(** The clock readings of the adds of a session rise, starting above
    [bound]. *)
Fixpoint clockRises (bound : Z) (es : list Event) : Prop :=
  match es with
  | [] => True
  | ClickAdd now :: es' => bound < now ∧ clockRises now es'
  | _ :: es' => clockRises bound es'
  end.

End SessionMore.

(** ** FunctionalUpdatesExample: three updates in one handler *)

Module FunctionalUpdates.

(** The single cell [count].  Three times [setCount(count + 1)]. *)
Definition incrementBad (count : Z) : list (Z → Z) :=
  [ λ _, count + 1; λ _, count + 1; λ _, count + 1 ].

(** Three times [setCount(prev => prev + 1)]. *)
Definition incrementGood (count : Z) : list (Z → Z) :=
  [ λ prev, prev + 1; λ prev, prev + 1; λ prev, prev + 1 ].

Definition reset (count : Z) : list (Z → Z) := [ λ _, 0 ].

Inductive Event := ClickBad | ClickGood | ClickReset.

#[global] Instance Event_eq_dec : EqDecision Event.
Proof. solve_decision. Defined.

Definition handler (e : Event) : Z → list (Z → Z) :=
  match e with
  | ClickBad => incrementBad
  | ClickGood => incrementGood
  | ClickReset => reset
  end.

Definition step (count : Z) (e : Event) : Z := dispatch (handler e) count.
Definition run (es : list Event) (count : Z) : Z := foldl step count es.

Definition bads (es : list Event) : nat := length (filter (λ e, e = ClickBad) es).
Definition goods (es : list Event) : nat := length (filter (λ e, e = ClickGood) es).

End FunctionalUpdates.

(** ** StateBatchingExample: updates of two cells in one handler *)

Module StateBatching.

(** [renderCount] is written by the initialiser of a further cell only,
    not by the handler. *)
Record State := mkState { count : Z; flag : bool; renderCount : Z }.

Definition setCount (v : Z) (s : State) : State := mkState v (flag s) (renderCount s).
Definition setFlag (v : bool) (s : State) : State := mkState (count s) v (renderCount s).

(** [setCount(c => c + 1); setFlag(f => !f); setCount(c => c + 1)] *)
Definition handleMultipleUpdates (r : State) : list (State → State) :=
  [ λ st, setCount (count st + 1) st;
    λ st, setFlag (negb (flag st)) st;
    λ st, setCount (count st + 1) st ].

(** [n] clicks on the button, a render between any two. *)
Definition clicks (n : nat) (s : State) : State :=
  Nat.iter n (dispatch handleMultipleUpdates) s.

End StateBatching.

(** ** PerformanceDemo: one update and a hundred in a loop *)

Module PerformanceDemo.

(** [lastUpdateTime] is [null] at first, then the string
    [(endTime - startTime).toFixed(2)], given here as [elapsed]. *)
Record State := mkState { updateCount : Z; lastUpdateTime : option jsstring }.

Definition init : State := {| updateCount := 0; lastUpdateTime := None |}.

Definition setUpdateCount (v : Z) (s : State) : State := mkState v (lastUpdateTime s).
Definition setLastUpdateTime (v : option jsstring) (s : State) : State :=
  mkState (updateCount s) v.

Definition simulateUpdate (elapsed : jsstring) (r : State) : list (State → State) :=
  [ λ st, setUpdateCount (updateCount st + 1) st;
    setLastUpdateTime (Some elapsed) ].

(** The loop enqueues [setUpdateCount(prev => prev + 1)] a hundred
    times. *)
Definition simulateMassUpdate (elapsed : jsstring) (r : State) : list (State → State) :=
  replicate 100 (λ st, setUpdateCount (updateCount st + 1) st)
  ++ [ setLastUpdateTime (Some elapsed) ].

Inductive Event :=
| ClickSingle (elapsed : jsstring)
| ClickMass (elapsed : jsstring).

Definition handler (e : Event) : State → list (State → State) :=
  match e with
  | ClickSingle elapsed => simulateUpdate elapsed
  | ClickMass elapsed => simulateMassUpdate elapsed
  end.

Definition step (s : State) (e : Event) : State := dispatch (handler e) s.
Definition run (es : list Event) (s : State) : State := foldl step s es.

Definition isMass (e : Event) : bool :=
  match e with ClickMass _ => true | ClickSingle _ => false end.

Definition elapsedOf (e : Event) : jsstring :=
  match e with ClickSingle t | ClickMass t => t end.

End PerformanceDemo.

(** ** DerivedStateExample: the cart and its derived total *)

Module DerivedState.

(** [price] is the decimal literal; sums and products of prices are
    floating point and are not modelled. *)
Record Item := mkItem { id : Z; name : jsstring; price : Q; quantity : Z }.

Definition init : list Item :=
  [ mkItem 1 (lit "Apple") (199 # 100) 3;
    mkItem 2 (lit "Banana") (99 # 100) 5;
    mkItem 3 (lit "Orange") (249 # 100) 2 ].

(** [items.reduce((sum, item) => sum + item.quantity, 0)] *)
Definition totalItems (items : list Item) : Z :=
  foldl (λ sum item, sum + quantity item) 0 items.

Definition withQuantity (id' newQuantity : Z) (item : Item) : Item :=
  if decide (id item = id')
  then {| id := id item; name := name item; price := price item;
          quantity := newQuantity |}
  else item.

Definition updateQuantity (id' newQuantity : Z) (items : list Item)
  : list (list Item → list Item) :=
  [ λ _, withQuantity id' newQuantity <$> items ].

(** The two buttons of the row rendered for [item]. *)
Definition minus (item : Item) : list Item → list (list Item → list Item) :=
  updateQuantity (id item) (Z.max 0 (quantity item - 1)).
Definition plus (item : Item) : list Item → list (list Item → list Item) :=
  updateQuantity (id item) (quantity item + 1).

Inductive Event :=
| ClickMinus (row : nat)
| ClickPlus (row : nat).

(** A click on a button of row [row] of the rendered list. *)
Definition step (items : list Item) (e : Event) : list Item :=
  match e with
  | ClickMinus row =>
      match items !! row with
      | Some item => dispatch (minus item) items
      | None => items
      end
  | ClickPlus row =>
      match items !! row with
      | Some item => dispatch (plus item) items
      | None => items
      end
  end.

Definition run (es : list Event) (items : list Item) : list Item := foldl step items es.

End DerivedState.

(** ** RefVsStateExample: a state cell and two refs *)

Module RefVsState.

(** What the last committed render put on the screen. *)
Record View := mkView { shownState : Z; shownRef : Z; shownRenders : Z }.

Record World := mkWorld {
  stateCount : Z;              (* useState(0) *)
  refCount : Z;                (* refCount.current *)
  renderCount : Z;             (* renderCount.current *)
  screen : View;
  alerts : list Z              (* the ref values shown by [alert] *)
}.

(** The render reads the cell and both refs. *)
Definition render (w : World) : View :=
  {| shownState := stateCount w; shownRef := refCount w;
     shownRenders := renderCount w |}.

(** A render is committed, then the effect without dependency array
    runs: [renderCount.current = renderCount.current + 1]. *)
Definition paint (w : World) : World :=
  mkWorld (stateCount w) (refCount w) (renderCount w + 1) (render w) (alerts w).

(** After the first render and its effect. *)
Definition mounted : World :=
  paint {| stateCount := 0; refCount := 0; renderCount := 0;
           screen := mkView 0 0 0; alerts := [] |}.

(** [setStateCount(stateCount + 1)], with the re-render it causes. *)
Definition incrementState (r : Z) (w : World) : World :=
  paint (mkWorld (r + 1) (refCount w) (renderCount w) (screen w) (alerts w)).

(** [refCount.current = refCount.current + 1], then the alert; no
    render follows. *)
Definition incrementRef (w : World) : World :=
  mkWorld (stateCount w) (refCount w + 1) (renderCount w) (screen w)
          (alerts w ++ [refCount w + 1]).

Inductive Event := ClickIncrementState | ClickIncrementRef.

#[global] Instance Event_eq_dec : EqDecision Event.
Proof. solve_decision. Defined.

Definition step (w : World) (e : Event) : World :=
  match e with
  | ClickIncrementState => incrementState (stateCount w) w
  | ClickIncrementRef => incrementRef w
  end.

Definition run (es : list Event) (w : World) : World := foldl step w es.

Definition stateClicks (es : list Event) : nat :=
  length (filter (λ e, e = ClickIncrementState) es).
Definition refClicks (es : list Event) : nat :=
  length (filter (λ e, e = ClickIncrementRef) es).

End RefVsState.

(** ** PreviousValueExample: the previous count kept in a ref *)

Module PreviousValue.

Inductive Change := Increased | Decreased | Same.

(** [previous = None] is shown as N/A, and then no change line. *)
Record View := mkView { previous : option Z; current : Z; change : option Change }.

Record World := mkWorld {
  count : Z;
  prevCountRef : option Z;     (* [None] is [undefined] *)
  screen : View
}.

Definition render (count' : Z) (prevCount : option Z) : View :=
  {| previous := prevCount;
     current := count';
     change :=
       match prevCount with
       | Some p =>
           Some (if p <? count' then Increased
                 else if count' <? p then Decreased else Same)
       | None => None
       end |}.

(** The first render and the effect after it. *)
Definition mounted : World :=
  {| count := 0; prevCountRef := Some 0; screen := render 0 None |}.

(** [setCount(v)]: a value equal to the cell changes nothing; another
    one is rendered with the ref as it stands, and the effect on
    [count] then stores it in the ref. *)
Definition setCount (v : Z) (w : World) : World :=
  if decide (v = count w) then w
  else {| count := v; prevCountRef := Some v;
          screen := render v (prevCountRef w) |}.

Inductive Event := ClickIncrement | ClickDecrement | ClickReset.

Definition step (w : World) (e : Event) : World :=
  match e with
  | ClickIncrement => setCount (count w + 1) w
  | ClickDecrement => setCount (count w - 1) w
  | ClickReset => setCount 0 w
  end.

Definition run (es : list Event) (w : World) : World := foldl step w es.

Definition reachable (w : World) : Prop := ∃ es, w = run es mounted.

End PreviousValue.

(** ** CleanupEffect and Timer: an interval owned by a child *)

Module CleanupEffect.
Import TimerExample.

(** The mounted [Timer]: its cell and the handle its effect holds. *)
Record TimerInstance := mkTimer { seconds : Z; interval : positive }.

Inductive LogLine := LogStarting | LogCleaning.

Record World := mkWorld {
  showTimer : bool;
  timer : option TimerInstance;
  timers : Timers;
  console : list LogLine
}.

Definition init : World :=
  {| showTimer := false; timer := None;
     timers := {| nextHandle := 1; active := ∅ |}; console := [] |}.

(** [Timer] mounts: [seconds] is 0 and the effect starts the interval. *)
Definition mountTimer (w : World) : World :=
  let '(h, t) := setInterval (timers w) in
  mkWorld (showTimer w) (Some (mkTimer 0 h)) t (console w ++ [LogStarting]).

(** [Timer] unmounts: the cleanup of its effect runs. *)
Definition unmountTimer (inst : TimerInstance) (w : World) : World :=
  mkWorld (showTimer w) None
          (clearInterval (Some (interval inst)) (timers w))
          (console w ++ [LogCleaning]).

(** [{showTimer && <Timer />}] against the child that is there. *)
Definition reconcile (w : World) : World :=
  match showTimer w, timer w with
  | true, None => mountTimer w
  | false, Some inst => unmountTimer inst w
  | _, _ => w
  end.

(** [setShowTimer(!showTimer)] *)
Definition toggle (r : bool) (w : World) : World :=
  reconcile (mkWorld (negb r) (timer w) (timers w) (console w)).

(** The callback of interval [h], [setSeconds(s => s + 1)] of the
    instance that started it. *)
Definition fire (h : positive) (w : World) : World :=
  if decide (h ∈ active (timers w)) then
    match timer w with
    | Some inst =>
        if decide (interval inst = h)
        then mkWorld (showTimer w) (Some (mkTimer (seconds inst + 1) h))
                     (timers w) (console w)
        else w
    | None => w
    end
  else w.

Inductive Event := ClickToggle | Fire (h : positive).

Definition step (w : World) (e : Event) : World :=
  match e with
  | ClickToggle => toggle (showTimer w) w
  | Fire h => fire h w
  end.

Definition run (es : list Event) (w : World) : World := foldl step w es.

Definition reachable (w : World) : Prop := ∃ es, w = run es init.

(** The interval of the shown timer is the only active one; none is
    active while the timer is hidden. *)
Definition owned (w : World) : Prop :=
  match timer w with
  | Some inst => showTimer w = true ∧ active (timers w) = {[ interval inst ]}
  | None => showTimer w = false ∧ active (timers w) = ∅
  end.

End CleanupEffect.

(** ** DependencyEffect: an effect that depends on one of two cells *)

Module DependencyEffect.

Record World := mkWorld {
  count : Z;
  name : jsstring;
  title : jsstring;            (* document.title *)
  console : list Z             (* the counts logged by the effect *)
}.

(** The effect body. *)
Definition effect (w : World) : World :=
  mkWorld (count w) (name w) (lit "Count: " ++ lit (pretty (count w)))
          (console w ++ [count w]).

(** After the first render and its effect; [title0] is the title the
    document had. *)
Definition mounted (title0 : jsstring) : World :=
  effect {| count := 0; name := lit "React"; title := title0; console := [] |}.

Inductive Event := ClickIncrement | NameChange (value : jsstring).

#[global] Instance Event_eq_dec : EqDecision Event.
Proof. solve_decision. Defined.

(** The effect runs after a render in which [count] differs from the
    render before. *)
Definition step (w : World) (e : Event) : World :=
  match e with
  | ClickIncrement => effect (mkWorld (count w + 1) (name w) (title w) (console w))
  | NameChange v => mkWorld (count w) v (title w) (console w)
  end.

Definition run (es : list Event) (w : World) : World := foldl step w es.

Definition increments (es : list Event) : nat :=
  length (filter (λ e, e = ClickIncrement) es).

End DependencyEffect.

(** ** DataFetchingEffect: measures of a session *)

Module FetchSession.
Import DataFetching.

(** The states reached after the mount in which the component is
    still on the page. *)
Definition reachable (w : World) : Prop :=
  (∃ es, w = run es (step init Mount)) ∧ removed w = false.

(** On the page, the loading flag is set only with a fetch in flight,
    and the user value held is one whose card renders. *)
Definition onPage (w : World) : Prop :=
  (loading (state w) = true → inFlight w ≠ 0%nat)
  ∧ render (mkState (user (state w)) false (userId (state w))) ≠ RenderThrows.

(** A user record, and a session in which it is shown while the fetch
    for another user id is in flight. *)
Definition alice : Json :=
  JObject [ (lit "name", JString (lit "Alice"));
            (lit "email", JString (lit "alice@example.com"));
            (lit "company", JObject [ (lit "name", JString (lit "Acme")) ]) ].

Definition aliceShown : World :=
  run [ Mount; Settle (Response 200 (Some alice)); ChangeUserId (lit "99") ] init.

End FetchSession.

(** ** FocusManagementExample: focus moved by the Enter key *)

Module FocusManagement.

Inductive Field := FirstName | LastName | Email.

(** The input that has the focus, if it is one of the three. *)
Record World := mkWorld { focused : option Field }.

(** The mount effect, [firstNameRef.current.focus()]. *)
Definition mounted : World := {| focused := Some FirstName |}.

(** [key] is [e.key]. *)
Definition handleFirstNameKeyPress (key : jsstring) (w : World) : World :=
  if decide (key = lit "Enter") then {| focused := Some LastName |} else w.

Definition handleLastNameKeyPress (key : jsstring) (w : World) : World :=
  if decide (key = lit "Enter") then {| focused := Some Email |} else w.

(** A key press reaches the input that has the focus; the e-mail input
    has no handler. *)
Definition keyPress (key : jsstring) (w : World) : World :=
  match focused w with
  | Some FirstName => handleFirstNameKeyPress key w
  | Some LastName => handleLastNameKeyPress key w
  | _ => w
  end.

Definition run (keys : list jsstring) (w : World) : World :=
  foldl (λ w' key, keyPress key w') w keys.

Definition enters (keys : list jsstring) : nat :=
  length (filter (λ key, key = lit "Enter") keys).

End FocusManagement.

(** * Properties *)

(** ** Trimming *)

Section Trim.

Example isWhiteSpace_samples :
  isWhiteSpace <$> [9; 13; 14; 32; 97; 133; 160; 8202; 8203; 65279]%N
  = [true; true; false; true; false; false; true; true; false; true].
Proof. reflexivity. Qed.

Example trim_sample : trim (lit "  a b  ") = lit "a b" ∧ trim (lit "   ") = [].
Proof. split; reflexivity. Qed.

Lemma trimStart_blank (s : jsstring) : blank s → trimStart s = [].
Proof.
  induction 1 as [|c s Hc _ IH]; simpl; [done|].
  by rewrite Hc.
Qed.

Lemma trimStart_nil_blank (s : jsstring) : trimStart s = [] → blank s.
Proof.
  induction s as [|c s IH]; simpl; [constructor|].
  destruct (isWhiteSpace c) eqn:Hc; [|done].
  intros H. constructor; [exact Hc | by apply IH].
Qed.

(** What [trimStart] leaves is empty or begins with a character that
    is not whitespace. *)
Lemma trimStart_head (s : jsstring) :
  trimStart s = [] ∨ ∃ c t, trimStart s = c :: t ∧ isWhiteSpace c = false.
Proof.
  induction s as [|c s IH]; simpl; [by left|].
  destruct (isWhiteSpace c) eqn:Hc; [done|].
  right. by exists c, s.
Qed.

Lemma blank_reverse (s : jsstring) : blank (reverse s) ↔ blank s.
Proof. unfold blank. by rewrite Forall_reverse. Qed.

Lemma trim_blank (s : jsstring) : blank s → trim s = [].
Proof.
  intros H. unfold trim, trimEnd.
  by rewrite (trimStart_blank s H).
Qed.

Lemma trim_nil_blank (s : jsstring) : trim s = [] → blank s.
Proof.
  unfold trim, trimEnd. intros H.
  apply (f_equal reverse) in H. rewrite reverse_involutive in H.
  change (reverse []) with (@nil N) in H.
  apply trimStart_nil_blank in H. apply (proj1 (blank_reverse _)) in H.
  destruct (trimStart_head s) as [Hs|(c & t & Hs & Hc)].
  - by apply trimStart_nil_blank.
  - rewrite Hs in H. apply Forall_cons in H as [Hc' _]. congruence.
Qed.

Lemma isEmpty_trim (s : jsstring) : isEmpty (trim s) = true ↔ blank s.
Proof.
  split.
  - intros H. apply trim_nil_blank. by destruct (trim s).
  - intros H. by rewrite trim_blank.
Qed.

Lemma truthy_trim (s : jsstring) : Js.truthy (trim s) = false ↔ blank s.
Proof.
  rewrite <- isEmpty_trim. unfold isEmpty. by destruct (Js.truthy _).
Qed.

End Trim.

(** ** Lists of records with an identifier *)

Section Keyed.
Context {A : Type} (key : A → Z).

Lemma filter_other_keys_absent (l : list A) (i : Z) :
  i ∉ key <$> l → filter (λ x, key x ≠ i) l = l.
Proof.
  induction l as [|x l IH]; [done|].
  rewrite fmap_cons, not_elem_of_cons. intros [Hx Hl].
  rewrite filter_cons_True by congruence.
  by rewrite IH.
Qed.

(** With pairwise distinct identifiers, filtering an identifier out
    cuts exactly one record out of the list. *)
Lemma filter_other_keys_cut (l : list A) (i : Z) :
  NoDup (key <$> l) → i ∈ key <$> l →
  ∃ l1 x l2, l = l1 ++ x :: l2 ∧ key x = i
             ∧ filter (λ y, key y ≠ i) l = l1 ++ l2.
Proof.
  intros Hnd Hin.
  apply list_elem_of_fmap in Hin as (x & -> & Hx).
  apply list_elem_of_split in Hx as (l1 & l2 & ->).
  exists l1, x, l2. split; [done|]. split; [done|].
  rewrite fmap_app, fmap_cons in Hnd.
  apply NoDup_app in Hnd as (_ & Hl1 & Hnd).
  apply NoDup_cons in Hnd as [Hl2 _].
  rewrite filter_app, filter_cons_False by (intros H; by apply H).
  rewrite !filter_other_keys_absent; [done|done|].
  intros Hx. apply (Hl1 _ Hx). by left.
Qed.

Lemma snoc_keeps_keys_distinct (l : list A) (x : A) :
  NoDup (key <$> l) → key x ∉ key <$> l → NoDup (key <$> l ++ [x]).
Proof.
  intros Hnd Hx. rewrite fmap_app. apply NoDup_app.
  split; [done|]. split; [|apply NoDup_singleton].
  intros k Hk Hk'. apply list_elem_of_singleton in Hk'. by subst.
Qed.


End Keyed.

(** ** StateDemo *)

Section StateDemoProps.
Import StateDemo Session.

Lemma count_step (s : State) (e : Event) :
  count (step s e) =
  match e with
  | ClickIncrement => count s + 1
  | ClickDecrement => count s - 1
  | ClickReset => 0
  | ClickPlusTen => count s + 10
  | _ => count s
  end.
Proof.
  destruct e; try reflexivity.
  unfold step, dispatch, handler, addTodo.
  by destruct (isEmpty (trim (newTodo s))).
Qed.

Lemma run_cons (e : Event) (es : list Event) (s : State) :
  run (e :: es) s = run es (step s e).
Proof. reflexivity. Qed.

Lemma count_run (es : list Event) (s : State) :
  Forall (λ e, ¬ jumps e) es →
  count (run es s) = count s + Z.of_nat (increments es) - Z.of_nat (decrements es).
Proof.
  unfold increments, decrements.
  intros H. revert s. induction H as [|e es He _ IH]; intros s.
  - simpl. lia.
  - rewrite run_cons, IH, count_step, !filter_cons.
    unfold jumps in He.
    destruct e; repeat case_decide; try done; simpl; try lia.
    all: exfalso; apply He; auto.
Qed.

(** Two calls of a handler of one render enqueue the same value: the
    count advances by one step only.  The functional update reads the
    queued state instead. *)
Example stale_increment (s : State) :
  count (commit (incrementCount s ++ incrementCount s) s) = count s + 1
  ∧ count (commit (incrementByTen s ++ incrementByTen s) s) = count s + 20.
Proof. split; simpl; lia. Qed.

(** C4. Counter demo: starting from 0, after a session with N clicks on
    the increment button and M clicks on the decrement button, in any
    order and mixed with any events other than reset and +10, each
    handler reading the count of the latest render, the displayed count
    is N - M. *)
Theorem counter_shows_increments_minus_decrements (es : list Event) :
  Forall (λ e, ¬ jumps e) es →
  countNumber (render (run es init))
  = Z.of_nat (increments es) - Z.of_nat (decrements es).
Proof.
  intros H. simpl. rewrite (count_run es init H). simpl. lia.
Qed.

Lemma counter_shows_increments_minus_decrements_witness :
  Forall (λ e, ¬ jumps e)
    [ClickIncrement; ClickDecrement; TextChange (lit "a");
     ClickDecrement; ClickToggle; ClickDecrement]
  ∧ countNumber (render (run [ClickIncrement; ClickDecrement; TextChange (lit "a");
                              ClickDecrement; ClickToggle; ClickDecrement] init))
    = 1 - 3.
Proof.
  assert (H : Forall (λ e, ¬ jumps e)
                [ClickIncrement; ClickDecrement; TextChange (lit "a");
                 ClickDecrement; ClickToggle; ClickDecrement])
    by (repeat constructor; intros [H|H]; discriminate H).
  split; [exact H|].
  exact (counter_shows_increments_minus_decrements _ H).
Defined.

Lemma text_step (s : State) (e : Event) :
  text (step s e) = match e with TextChange v => v | _ => text s end.
Proof.
  destruct e; try reflexivity.
  unfold step, dispatch, handler, addTodo.
  by destruct (isEmpty (trim (newTodo s))).
Qed.

Lemma text_run (es : list Event) (s : State) :
  text (run es s)
  = foldl (λ acc e, match e with TextChange v => v | _ => acc end) (text s) es.
Proof.
  revert s. induction es as [|e es IH]; intros s; [done|].
  rewrite run_cons, IH, text_step. simpl. by destruct e.
Qed.

(** C5. Text-input demo: after any sequence of events the text is the
    value of the last change event (empty when there was none), the
    displayed character count is the length of that text, and once the
    text is the empty string the count shown is 0. *)
Theorem character_count_is_text_length (es : list Event) :
  text (run es init) = lastTyped es
  ∧ characterCount (render (run es init)) = length (lastTyped es)
  ∧ characterCount (render (step (run es init) (TextChange []))) = 0%nat.
Proof.
  pose proof (text_run es init) as H. fold (lastTyped es) in H.
  split; [exact H|]. split.
  - change (length (text (run es init)) = length (lastTyped es)). by rewrite H.
  - change (length (text (step (run es init) (TextChange []))) = 0%nat).
    by rewrite text_step.
Qed.

(** C6. Toggle demo: one activation of the toggle handler inverts the
    boolean (in the state and in what is displayed), and two
    activations bring the whole state back to where it was. *)
Theorem toggle_twice_is_identity (s : State) :
  isOn (step s ClickToggle) = negb (isOn s)
  ∧ switchIsOn (render (step s ClickToggle)) = negb (switchIsOn (render s))
  ∧ step (step s ClickToggle) ClickToggle = s.
Proof.
  destruct s as [c t b u l n bg tc].
  repeat split; try reflexivity.
  unfold step, dispatch, commit, handler, toggleSwitch, setIsOn. simpl.
  by rewrite negb_involutive.
Qed.

Lemma toggleItem_id (i : Z) (t : Todo.t) : Todo.id (toggleItem i t) = Todo.id t.
Proof. unfold toggleItem. by case_decide. Qed.

Lemma toggleItem_text (i : Z) (t : Todo.t) : Todo.text (toggleItem i t) = Todo.text t.
Proof. unfold toggleItem. by case_decide. Qed.

(** The toggle action position by position, for every list: the length,
    the order of identifiers and the texts stay; a record with the
    identifier has its completion flag inverted, a record with another
    identifier is unchanged; nothing else in the state changes. *)
Lemma toggleTodo_pointwise (s : State) (i : Z) :
  i ∈ Todo.id <$> todos s →
  length (todos (step s (CheckTodo i))) = length (todos s)
  ∧ Todo.id <$> todos (step s (CheckTodo i)) = Todo.id <$> todos s
  ∧ Todo.text <$> todos (step s (CheckTodo i)) = Todo.text <$> todos s
  ∧ (∀ k t, todos s !! k = Some t → Todo.id t = i →
       ∃ t', todos (step s (CheckTodo i)) !! k = Some t'
             ∧ Todo.id t' = Todo.id t ∧ Todo.text t' = Todo.text t
             ∧ Todo.completed t' = negb (Todo.completed t))
  ∧ (∀ k t, todos s !! k = Some t → Todo.id t ≠ i →
       todos (step s (CheckTodo i)) !! k = Some t)
  ∧ (∃ k t, todos s !! k = Some t ∧ Todo.id t = i
            ∧ todos (step s (CheckTodo i)) !! k
              = Some (Todo.mk i (Todo.text t) (negb (Todo.completed t))))
  ∧ setTodos (todos s) (step s (CheckTodo i)) = s.
Proof.
  intros Hin.
  change (todos (step s (CheckTodo i))) with (toggleItem i <$> todos s).
  split; [by rewrite length_fmap|].
  split; [rewrite <- list_fmap_compose; apply list_fmap_ext;
          intros ? t _; apply toggleItem_id|].
  split; [rewrite <- list_fmap_compose; apply list_fmap_ext;
          intros ? t _; apply toggleItem_text|].
  split.
  { intros k t Hk Ht. exists (toggleItem i t).
    rewrite list_lookup_fmap, Hk. split; [done|].
    unfold toggleItem. by rewrite decide_True. }
  split.
  { intros k t Hk Ht. rewrite list_lookup_fmap, Hk. simpl.
    unfold toggleItem. by rewrite decide_False. }
  split.
  { apply list_elem_of_fmap in Hin as (t & -> & Ht).
    apply list_elem_of_lookup in Ht as [k Hk].
    exists k, t. split; [done|]. split; [done|].
    rewrite list_lookup_fmap, Hk. simpl.
    unfold toggleItem. by rewrite decide_True. }
  by destruct s.
Qed.





(** C9. Both todo demos: when the input text is empty or consists of
    whitespace only, the add action leaves the whole state of the
    component as it was: no item is appended and the input keeps its
    text. *)
Theorem addTodo_blank_input_is_noop
  (s : State) (c : CommonPatterns.State) (now : Z) :
  blank (newTodo s) → blank (CommonPatterns.input c) →
  step s (ClickAdd now) = s
  ∧ dispatch (CommonPatterns.addTodo now) c = c.
Proof.
  intros Hs Hc. split.
  - unfold step, dispatch, handler, addTodo.
    by rewrite (proj2 (isEmpty_trim _) Hs).
  - unfold dispatch, CommonPatterns.addTodo.
    by rewrite (proj2 (truthy_trim _) Hc).
Qed.

Lemma addTodo_blank_input_is_noop_witness :
  blank (newTodo (setNewTodo [32; 9; 160]%N init))
  ∧ blank (CommonPatterns.input (CommonPatterns.setInput [32; 10]%N CommonPatterns.init))
  ∧ step (setNewTodo [32; 9; 160]%N init) (ClickAdd 1700000000000)
    = setNewTodo [32; 9; 160]%N init
  ∧ dispatch (CommonPatterns.addTodo 1700000000000)
      (CommonPatterns.setInput [32; 10]%N CommonPatterns.init)
    = CommonPatterns.setInput [32; 10]%N CommonPatterns.init.
Proof.
  assert (Hs : blank (newTodo (setNewTodo [32; 9; 160]%N init)))
    by (repeat constructor).
  assert (Hc : blank (CommonPatterns.input
                        (CommonPatterns.setInput [32; 10]%N CommonPatterns.init)))
    by (repeat constructor).
  split; [exact Hs|]. split; [exact Hc|].
  exact (addTodo_blank_input_is_noop _ _ 1700000000000 Hs Hc).
Defined.

End StateDemoProps.

(** ** Adding and removing by identifier *)

Section ListDemos.
Import StateDemo.

Lemma addTodo_appends (s : State) (now : Z) :
  ¬ blank (newTodo s) →
  step s (ClickAdd now)
  = setNewTodo [] (setTodos (todos s ++ [Todo.mk now (newTodo s) false]) s).
Proof.
  intros H. unfold step, dispatch, handler, addTodo.
  destruct (isEmpty (trim (newTodo s))) eqn:E; [|done].
  by apply isEmpty_trim in E.
Qed.

(** Adding and removing while identifiers are distinct. The identifier
    of a new record is the reading of the clock, and removal filters by
    identifier; so:
    - adding with a non-blank input (any click, for the keyed list)
      appends exactly one record, whose identifier is the clock
      reading, and the length grows by exactly 1;
    - when the clock reading is not yet an identifier of the list, the
      identifiers stay pairwise distinct;
    - in a list with pairwise distinct identifiers, removing by an
      identifier that is present cuts exactly the record with that
      identifier out: the length drops by exactly 1 and the records
      before and after it stay as they were, in order. *)
Theorem add_and_remove_by_identifier :
  (∀ (s : State) (now : Z), ¬ blank (newTodo s) →
     todos (step s (ClickAdd now)) = todos s ++ [Todo.mk now (newTodo s) false]
     ∧ length (todos (step s (ClickAdd now))) = S (length (todos s))
     ∧ (NoDup (Todo.id <$> todos s) → now ∉ Todo.id <$> todos s →
        NoDup (Todo.id <$> todos (step s (ClickAdd now)))))
  ∧ (∀ (s : State) (i : Z),
       NoDup (Todo.id <$> todos s) → i ∈ Todo.id <$> todos s →
       ∃ l1 t l2, todos s = l1 ++ t :: l2 ∧ Todo.id t = i
                  ∧ todos (step s (ClickDelete i)) = l1 ++ l2
                  ∧ S (length (todos (step s (ClickDelete i)))) = length (todos s))
  ∧ (∀ (items : list KeyDemo.Item) (now : Z) (hsl : jsstring),
       ∃ label, dispatch (KeyDemo.addItem now hsl) items
                = items ++ [KeyDemo.mkItem now label hsl]
       ∧ length (dispatch (KeyDemo.addItem now hsl) items) = S (length items)
       ∧ (NoDup (KeyDemo.id <$> items) → now ∉ KeyDemo.id <$> items →
          NoDup (KeyDemo.id <$> dispatch (KeyDemo.addItem now hsl) items)))
  ∧ (∀ (items : list KeyDemo.Item) (i : Z),
       NoDup (KeyDemo.id <$> items) → i ∈ KeyDemo.id <$> items →
       ∃ l1 t l2, items = l1 ++ t :: l2 ∧ KeyDemo.id t = i
                  ∧ dispatch (KeyDemo.removeItem i) items = l1 ++ l2
                  ∧ S (length (dispatch (KeyDemo.removeItem i) items)) = length items).
Proof.
  split; [|split; [|split]].
  - intros s now Hs. rewrite (addTodo_appends s now Hs).
    change (todos (setNewTodo _ (setTodos ?l _))) with l.
    split; [done|]. split.
    + rewrite length_app. simpl. lia.
    + intros Hnd Hnow. by apply snoc_keeps_keys_distinct.
  - intros s i Hnd Hi.
    destruct (filter_other_keys_cut Todo.id (todos s) i Hnd Hi)
      as (l1 & t & l2 & Hl & Ht & Hf).
    exists l1, t, l2.
    change (todos (step s (ClickDelete i)))
      with (filter (λ todo, Todo.id todo ≠ i) (todos s)).
    rewrite Hf, Hl, !length_app. simpl. repeat split; (done || lia).
  - intros items now hsl.
    exists (lit "Item " ++ lit (pretty (N.of_nat (length items + 1)))).
    change (dispatch (KeyDemo.addItem now hsl) items)
      with (items ++ [KeyDemo.mkItem now
              (lit "Item " ++ lit (pretty (N.of_nat (length items + 1)))) hsl]).
    split; [done|]. split.
    + rewrite length_app. simpl. lia.
    + intros Hnd Hnow. by apply snoc_keeps_keys_distinct.
  - intros items i Hnd Hi.
    destruct (filter_other_keys_cut KeyDemo.id items i Hnd Hi)
      as (l1 & t & l2 & Hl & Ht & Hf).
    exists l1, t, l2.
    change (dispatch (KeyDemo.removeItem i) items)
      with (filter (λ item, KeyDemo.id item ≠ i) items).
    rewrite Hf, Hl, !length_app. simpl. repeat split; (done || lia).
Qed.

Lemma add_and_remove_by_identifier_witness :
  (¬ blank (newTodo SameClock.typed)
   ∧ NoDup (Todo.id <$> todos SameClock.typed)
   ∧ ((SameClock.clock + 1) ∉ Todo.id <$> todos SameClock.typed)
   ∧ NoDup (Todo.id <$> todos (step SameClock.typed (ClickAdd (SameClock.clock + 1)))))
  ∧ (NoDup (Todo.id <$> todos init)
     ∧ 2 ∈ Todo.id <$> todos init
     ∧ S (length (todos (step init (ClickDelete 2)))) = length (todos init))
  ∧ (NoDup (KeyDemo.id <$> KeyDemo.init)
     ∧ (SameClock.clock ∉ KeyDemo.id <$> KeyDemo.init)
     ∧ NoDup (KeyDemo.id <$> SameClock.items1))
  ∧ (NoDup (KeyDemo.id <$> SameClock.items1)
     ∧ SameClock.clock ∈ KeyDemo.id <$> SameClock.items1
     ∧ S (length (dispatch (KeyDemo.removeItem SameClock.clock) SameClock.items1))
       = length SameClock.items1).
Proof.
  destruct add_and_remove_by_identifier as (Hadd & Hdel & Kadd & Kdel).
  assert (Hb : ¬ blank (newTodo SameClock.typed)).
  { change (newTodo SameClock.typed) with [98%N].
    intros H. apply Forall_cons in H as [H _]. discriminate H. }
  assert (Hnd : NoDup (Todo.id <$> todos SameClock.typed)) by compute_done.
  assert (Hfresh : (SameClock.clock + 1) ∉ (Todo.id <$> todos SameClock.typed))
    by compute_done.
  assert (Hnd0 : NoDup (Todo.id <$> todos init)) by compute_done.
  assert (Hin0 : 2 ∈ Todo.id <$> todos init) by compute_done.
  assert (Knd0 : NoDup (KeyDemo.id <$> KeyDemo.init)) by compute_done.
  assert (Kfresh : SameClock.clock ∉ KeyDemo.id <$> KeyDemo.init) by compute_done.
  assert (Kin : SameClock.clock ∈ KeyDemo.id <$> SameClock.items1) by compute_done.
  destruct (Hadd SameClock.typed (SameClock.clock + 1) Hb) as (_ & _ & Hadd').
  destruct (Hdel init 2 Hnd0 Hin0) as (l1 & t & l2 & _ & _ & _ & Hlen).
  destruct (Kadd KeyDemo.init SameClock.clock (lit "hsl(0, 70%, 85%)"))
    as (label & _ & _ & Kadd').
  pose proof (Kadd' Knd0 Kfresh) as Knd1.
  destruct (Kdel SameClock.items1 SameClock.clock Knd1 Kin)
    as (k1 & u & k2 & _ & _ & _ & Klen).
  repeat split; try assumption.
  by apply Hadd'.
Defined.

(** C3. When the clock reads the same millisecond at two adds, the
    code gives the new record an identifier that is already in the
    list, and removing by that identifier takes two records out, in the
    todo list (length 4 to 2) and in the keyed list (5 to 3); the claim
    requires a unique identifier and a length that drops by exactly
    1. *)
Lemma same_clock_repeats_identifier :
  ¬ blank (newTodo SameClock.typed)
  ∧ ¬ (SameClock.clock ∉ Todo.id <$> todos SameClock.typed)
  ∧ Todo.id <$> todos SameClock.added = [1; 2; SameClock.clock; SameClock.clock]
  ∧ SameClock.clock ∈ Todo.id <$> todos SameClock.added
  ∧ length (todos SameClock.added) = 4%nat
  ∧ length (todos (step SameClock.added (ClickDelete SameClock.clock))) = 2%nat
  ∧ ¬ (SameClock.clock ∉ KeyDemo.id <$> SameClock.items1)
  ∧ KeyDemo.id <$> SameClock.items2 = [1; 2; 3; SameClock.clock; SameClock.clock]
  ∧ length SameClock.items2 = 5%nat
  ∧ length (dispatch (KeyDemo.removeItem SameClock.clock) SameClock.items2) = 3%nat.
Proof.
  split.
  { change (newTodo SameClock.typed) with [98%N].
    intros H. apply Forall_cons in H as [H _]. discriminate H. }
  split; [intros H; apply H; compute_done|].
  split; [reflexivity|]. split; [compute_done|].
  split; [reflexivity|]. split; [reflexivity|].
  split; [intros H; apply H; compute_done|].
  repeat split; reflexivity.
Qed.

End ListDemos.

(** ** ComplexObjectStateExample *)

Section ComplexObjectProps.
Import ComplexObject.

(** C7. Object-state demo: changing the city replaces the city and
    nothing else (name, email, street, zip code and both preferences
    stay); flipping the notifications flag inverts it and nothing else
    (name, email, the whole address and the theme stay). *)
Theorem nested_update_keeps_siblings (user : User) (value : jsstring) :
  (name (dispatch (updateCity value) user) = name user
   ∧ email (dispatch (updateCity value) user) = email user
   ∧ street (address (dispatch (updateCity value) user)) = street (address user)
   ∧ zipCode (address (dispatch (updateCity value) user)) = zipCode (address user)
   ∧ preferences (dispatch (updateCity value) user) = preferences user
   ∧ city (address (dispatch (updateCity value) user)) = value)
  ∧ (name (dispatch toggleNotifications user) = name user
     ∧ email (dispatch toggleNotifications user) = email user
     ∧ address (dispatch toggleNotifications user) = address user
     ∧ theme (preferences (dispatch toggleNotifications user))
       = theme (preferences user)
     ∧ notifications (preferences (dispatch toggleNotifications user))
       = negb (notifications (preferences user))).
Proof. repeat split. Qed.

End ComplexObjectProps.

(** ** TimerExample *)

Section TimerProps.
Import TimerExample TimerInvariant.
#[local] Set Warnings "-clear-no-such-hyp".

Lemma startTimer_running (r : State) (w : World) :
  isRunning r = true → startTimer r w = w.
Proof. intros H. unfold startTimer. by rewrite H. Qed.

Lemma tracked_init : tracked init.
Proof. reflexivity. Qed.

Lemma tracked_step (w : World) (e : Event) : tracked w → tracked (step w e).
Proof.
  destruct w as [[secs running] ref [next act] out live].
  unfold tracked, step. simpl.
  destruct live; [|done].
  destruct e, running; simpl; intros Htr.
  - done.
  - exists next. split; [done|]. rewrite Htr. set_solver.
  - destruct Htr as (h & -> & ->). set_solver.
  - destruct ref; simpl; rewrite ?Htr; set_solver.
  - destruct Htr as (h & -> & ->). set_solver.
  - destruct ref; simpl; rewrite ?Htr; set_solver.
  - case_decide; simpl; done.
  - case_decide; simpl; done.
  - destruct Htr as (h & -> & ->). simpl. set_solver.
  - destruct ref; simpl; rewrite ?Htr; set_solver.
Qed.

Lemma tracked_run (es : list Event) (w : World) : tracked w → tracked (run es w).
Proof.
  revert w. induction es as [|e es IH]; intros w H; [done|].
  apply IH, tracked_step, H.
Qed.

Lemma tracked_reachable (w : World) : reachable w → tracked w.
Proof. intros [es ->]. apply tracked_run, tracked_init. Qed.

Lemma intervalRef_step_running (w : World) (e : Event) :
  isRunning (state w) = true → intervalRef (step w e) = intervalRef w.
Proof.
  intros H. unfold step. destruct (mounted w); [|done].
  destruct e.
  - by rewrite startTimer_running.
  - reflexivity.
  - reflexivity.
  - by case_decide.
  - unfold cleanup. by destruct (intervalRef w) eqn:E.
Qed.

(** C10. Timer demo: the start handler of a render in which the timer
    is running changes nothing; hence a click on Start while running
    leaves the whole world as it is, in every reachable state at most
    one interval is active, and no event overwrites the stored handle
    while the timer is running. *)
Theorem startTimer_while_running_is_noop :
  (∀ (r : State) (w : World), isRunning r = true → startTimer r w = w)
  ∧ (∀ w : World, isRunning (state w) = true → step w ClickStart = w)
  ∧ (∀ w : World, reachable w → (size (active (timers w)) ≤ 1)%nat)
  ∧ (∀ (w : World) (e : Event), isRunning (state w) = true →
       intervalRef (step w e) = intervalRef w).
Proof.
  split; [exact startTimer_running|].
  split.
  { intros w H. unfold step. destruct (mounted w); [|done].
    by apply startTimer_running. }
  split; [|exact intervalRef_step_running].
  intros w Hw. apply tracked_reachable in Hw. unfold tracked in Hw.
  destruct (mounted w && isRunning (state w)).
  - destruct Hw as (h & _ & ->). rewrite size_singleton. lia.
  - rewrite Hw, size_empty. lia.
Qed.

Lemma startTimer_while_running_is_noop_witness :
  reachable (run [ClickStart; Fire 1; ClickStop; ClickStart] init)
  ∧ isRunning (state (run [ClickStart; Fire 1; ClickStop; ClickStart] init)) = true
  ∧ step (run [ClickStart; Fire 1; ClickStop; ClickStart] init) ClickStart
    = run [ClickStart; Fire 1; ClickStop; ClickStart] init
  ∧ (size (active (timers (run [ClickStart; Fire 1; ClickStop; ClickStart] init))) ≤ 1)%nat
  ∧ intervalRef (step (run [ClickStart; Fire 1; ClickStop; ClickStart] init) ClickReset)
    = intervalRef (run [ClickStart; Fire 1; ClickStop; ClickStart] init).
Proof.
  destruct startTimer_while_running_is_noop as (_ & Hnoop & Hone & Hkeep).
  assert (Hr : reachable (run [ClickStart; Fire 1; ClickStop; ClickStart] init))
    by (by eexists).
  assert (Hrun : isRunning (state (run [ClickStart; Fire 1; ClickStop; ClickStart] init))
                 = true) by reflexivity.
  split; [exact Hr|]. split; [exact Hrun|].
  split; [exact (Hnoop _ Hrun)|].
  split; [exact (Hone _ Hr)|exact (Hkeep _ ClickReset Hrun)].
Defined.

End TimerProps.

(** ** DataFetchingEffect *)

Section DataFetchingProps.
Import DataFetching FetchSession.

(** Whether the chain rejects does not depend on the world. *)
Lemma thenChain_throw_any_world (o : Outcome) (w w' : World) (e : JsError) :
  thenChain o w = Throw e → thenChain o w' = Throw e.
Proof.
  unfold thenChain, onData.
  destruct (responseJson o) as [data|e']; [|done].
  by destruct (getProp (lit "name") data).
Qed.

(** The outcomes that reach the [.catch] handler: no response, a body
    that is not JSON, and the JSON value [null]. *)
Lemma thenChain_throw_cases (o : Outcome) (w : World) (e : JsError) :
  thenChain o w = Throw e ↔
  (o = NoResponse ∧ e = FetchFailed)
  ∨ (∃ status, o = Response status None ∧ e = BodyNotJson)
  ∨ (∃ status, o = Response status (Some JNull) ∧ e = ReadOfNull).
Proof.
  split.
  - destruct o as [|status [data|]]; simpl.
    + intros [= <-]. by left.
    + unfold thenChain, onData. simpl.
      destruct data; simpl; try discriminate.
      intros [= <-]. right; right. by exists status.
    + intros [= <-]. right; left. by exists status.
  - intros [[-> ->]|[[status [-> ->]]|[status [-> ->]]]]; reflexivity.
Qed.

Lemma settle_throw (o : Outcome) (w : World) (e : JsError) :
  thenChain o w = Throw e → settle o w = onError e w.
Proof. intros H. unfold settle. by rewrite H. Qed.

Lemma settle_clears_loading (o : Outcome) (w : World) :
  loading (state (settle o w)) = false.
Proof.
  unfold settle, thenChain, onData.
  destruct (responseJson o) as [data|e]; [|done].
  by destruct (getProp (lit "name") data).
Qed.

Lemma render_not_loading (s : State) :
  loading s = false → render s ≠ ShowLoading.
Proof.
  intros H. unfold render. rewrite H.
  destruct (user s) as [u|]; [|done].
  destruct (truthy u); [|done].
  by destruct (_ && _).
Qed.

(** C1, as the code has it. When the fetch fails, the [.catch] handler
    writes the error to the console and sets the loading flag to
    false: one error line is appended to the log, the user value and
    the user id stay, what is rendered is what the previous user value
    gives (its card, or nothing), and it is not the loading line. *)
Theorem failed_fetch_is_logged_and_clears_loading
  (o : Outcome) (w : World) (e : JsError) :
  thenChain o w = Throw e →
  console (settle o w) = console w ++ [LogError e]
  ∧ state (settle o w) = mkState (user (state w)) false (userId (state w))
  ∧ loading (state (settle o w)) = false
  ∧ render (state (settle o w))
    = render (mkState (user (state w)) false (userId (state w)))
  ∧ render (state (settle o w)) ≠ ShowLoading.
Proof.
  intros H. rewrite (settle_throw o w e H).
  repeat split.
  by apply render_not_loading.
Qed.

Lemma failed_fetch_is_logged_and_clears_loading_witness :
  thenChain (Response 200 None) (run [Mount] init) = Throw BodyNotJson
  ∧ console (settle (Response 200 None) (run [Mount] init))
    = [LogFetching (IdNumber 1); LogError BodyNotJson]
  ∧ loading (state (settle (Response 200 None) (run [Mount] init))) = false.
Proof.
  assert (H : thenChain (Response 200 None) (run [Mount] init) = Throw BodyNotJson)
    by reflexivity.
  split; [exact H|].
  destruct (failed_fetch_is_logged_and_clears_loading _ _ _ H) as (Hc & _ & Hl & _).
  split; [exact Hc|exact Hl].
Defined.

(** C1 as stated fails: the fetch started at mount gets no response,
    and the loading flag, true while the fetch was in flight, is false
    once it has settled. *)
Lemma failed_fetch_does_not_keep_loading :
  loading (state (run [Mount] init)) = true
  ∧ thenChain NoResponse (run [Mount] init) = Throw FetchFailed
  ∧ ¬ (loading (state (run [Mount; Settle NoResponse] init)) = true)
  ∧ render (state (run [Mount; Settle NoResponse] init)) = ShowNothing.
Proof. repeat split. intros H. discriminate H. Qed.

Lemma commitRender_cases (before after : World) :
  (render (state after) ≠ RenderThrows ∧ commitRender before after = after)
  ∨ (render (state after) = RenderThrows
     ∧ commitRender before after
       = mkWorld (state before) (console after) (inFlight after) true).
Proof.
  unfold commitRender.
  destruct (render (state after)); [left|left|left|right]; done.
Qed.

Lemma commitRender_loading (before after : World) :
  loading (state after) = true → commitRender before after = after.
Proof. intros H. unfold commitRender, render. by rewrite H. Qed.

Lemma removed_step (w : World) (e : Event) :
  removed w = true → removed (step w e) = true.
Proof.
  intros H. unfold step. rewrite H.
  destruct e as [|v|o]; try done. by destruct (inFlight w).
Qed.

Lemma removed_run (es : list Event) (w : World) :
  removed w = true → removed (run es w) = true.
Proof.
  revert w. induction es as [|e es IH]; intros w H; [done|].
  apply (IH (step w e)), removed_step, H.
Qed.

Lemma onPage_step (w : World) (e : Event) :
  onPage w → removed (step w e) = false → onPage (step w e).
Proof.
  intros [Hl Hu] Hlive.
  destruct (removed w) eqn:Hw.
  { by rewrite (removed_step w e Hw) in Hlive. }
  unfold step in *. rewrite Hw in *.
  destruct e as [|v|o].
  - rewrite commitRender_loading by reflexivity.
    split; [intros _; simpl; discriminate|simpl; exact Hu].
  - case_decide; [by split|].
    rewrite commitRender_loading by reflexivity.
    split; [intros _; simpl; discriminate|].
    unfold render in *. exact Hu.
  - destruct (inFlight w) as [|n] eqn:Hn.
    { split; [intros Hx; apply Hl in Hx; congruence|exact Hu]. }
    destruct (commitRender_cases (setInFlight n w) (settle o (setInFlight n w)))
      as [[Hr ->]|[_ Hc]].
    + split; [by rewrite settle_clears_loading|].
      assert (Hfalse : loading (state (settle o (setInFlight n w))) = false)
        by apply settle_clears_loading.
      destruct (state (settle o (setInFlight n w))) as [u l i]. simpl in *.
      by subst l.
    + rewrite Hc in Hlive. done.
Qed.

Lemma onPage_reachable (w : World) : FetchSession.reachable w → onPage w.
Proof.
  intros [[es ->] Hlive].
  enough (H : ∀ w0, onPage w0 → removed (run es w0) = false → onPage (run es w0))
    by (apply H; [by split|done]).
  clear Hlive. induction es as [|e es IH]; intros w0 H0 Hlive; [done|].
  change (run (e :: es) w0) with (run es (step w0 e)) in *.
  destruct (removed (step w0 e)) eqn:Hs.
  { by rewrite (removed_run es _ Hs) in Hlive. }
  apply IH; [by apply onPage_step|done].
Qed.

(** C2, as the code has it. A fetch takes the error path when the
    promise chain rejects: no response, a body that is not JSON, or the
    JSON value [null].  The [.catch] handler then leaves the user value
    as it was and sets the loading flag to false; for a fetch in flight
    of a component on the page the settle event does so and the
    component stays on the page.  The loading flag is false after the
    handlers of any settled fetch. *)
Theorem failed_fetch_keeps_user_and_loading_unstuck
  (o : Outcome) (w : World) (e : JsError) (n : nat) :
  thenChain o w = Throw e →
  ((o = NoResponse ∧ e = FetchFailed)
   ∨ (∃ status, o = Response status None ∧ e = BodyNotJson)
   ∨ (∃ status, o = Response status (Some JNull) ∧ e = ReadOfNull))
  ∧ user (state (settle o w)) = user (state w)
  ∧ loading (state (settle o w)) = false
  ∧ (FetchSession.reachable w → inFlight w = S n →
       user (state (step w (Settle o))) = user (state w)
       ∧ loading (state (step w (Settle o))) = false
       ∧ removed (step w (Settle o)) = false)
  ∧ (∀ o' w', loading (state (settle o' w')) = false).
Proof.
  intros H. split; [by apply (thenChain_throw_cases o w e)|].
  rewrite (settle_throw o w e H).
  split; [done|]. split; [done|]. split; [|exact settle_clears_loading].
  intros Hw Hn. destruct (onPage_reachable w Hw) as [_ Hu].
  destruct Hw as [_ Hlive].
  unfold step. rewrite Hlive, Hn.
  rewrite (settle_throw o (setInFlight n w) e
             (thenChain_throw_any_world o w _ e H)).
  destruct (commitRender_cases (setInFlight n w) (onError e (setInFlight n w)))
    as [[_ ->]|[Hr _]]; [done|].
  by destruct Hu.
Qed.

Lemma failed_fetch_keeps_user_and_loading_unstuck_witness :
  thenChain NoResponse FetchSession.aliceShown = Throw FetchFailed
  ∧ FetchSession.reachable FetchSession.aliceShown
  ∧ inFlight FetchSession.aliceShown = 1%nat
  ∧ user (state (step FetchSession.aliceShown (Settle NoResponse)))
    = Some FetchSession.alice
  ∧ loading (state (step FetchSession.aliceShown (Settle NoResponse))) = false.
Proof.
  assert (H : thenChain NoResponse FetchSession.aliceShown = Throw FetchFailed)
    by reflexivity.
  assert (Hw : FetchSession.reachable FetchSession.aliceShown).
  { split; [|reflexivity].
    by exists [Settle (Response 200 (Some FetchSession.alice));
               ChangeUserId (lit "99")]. }
  assert (Hn : inFlight FetchSession.aliceShown = 1%nat) by reflexivity.
  split; [exact H|]. split; [exact Hw|]. split; [exact Hn|].
  destruct (failed_fetch_keeps_user_and_loading_unstuck _ _ _ 0 H)
    as (_ & _ & _ & Hstep & _).
  destruct (Hstep Hw Hn) as (Hu & Hl & _).
  split; [exact Hu|exact Hl].
Defined.

(** C2 as stated fails for a failing response that carries a JSON
    body: the component does not read the status, so while Alice's
    card is shown a 404 whose body is an empty object does not take the
    error path, and the object replaces her as the user value. *)
Lemma error_status_replaces_shown_user :
  user (state FetchSession.aliceShown) = Some FetchSession.alice
  ∧ render (mkState (user (state FetchSession.aliceShown)) false (IdString (lit "99")))
    = ShowUser (Some (JString (lit "Alice")))
               (Some (JString (lit "alice@example.com")))
               (Some (JString (lit "Acme")))
  ∧ inFlight FetchSession.aliceShown = 1%nat
  ∧ user (state (step FetchSession.aliceShown
                   (Settle (Response 404 (Some (JObject []))))))
    = Some (JObject [])
  ∧ ¬ (user (state (step FetchSession.aliceShown
                      (Settle (Response 404 (Some (JObject []))))))
       = user (state FetchSession.aliceShown))
  ∧ render (state (step FetchSession.aliceShown
                     (Settle (Response 404 (Some (JObject []))))))
    = ShowUser None None None.
Proof.
  repeat split. intros H. discriminate H.
Qed.

(** A response with an error status and a JSON body does not reject:
    the component does not read the status, and the body becomes the
    user value. *)
Example error_status_with_json_body :
  state (run [Mount; Settle (Response 404 (Some (JObject [])))] init)
  = mkState (Some (JObject [])) false (IdNumber 1).
Proof. reflexivity. Qed.

End DataFetchingProps.

(** ** The word count *)

Section WordCountProps.
Import WordCount.

Lemma trimStart_prefix (s : jsstring) : ∃ w, blank w ∧ s = w ++ trimStart s.
Proof.
  induction s as [|c s (w & Hw & IH)].
  { exists []. split; [constructor|done]. }
  simpl. destruct (isWhiteSpace c) eqn:Hc.
  - exists (c :: w). split; [by constructor|]. simpl. by rewrite <- IH.
  - exists []. split; [constructor|done].
Qed.

Lemma trimEnd_suffix (s : jsstring) : ∃ w, blank w ∧ s = trimEnd s ++ w.
Proof.
  destruct (trimStart_prefix (reverse s)) as (w & Hw & Hs).
  exists (reverse w). split; [by apply blank_reverse|].
  unfold trimEnd. rewrite <- reverse_app, <- Hs. by rewrite reverse_involutive.
Qed.

Lemma wordStarts_blank (a : bool) (w : jsstring) : blank w → wordStarts a w = 0%nat.
Proof.
  intros H. revert a. induction H as [|c w Hc _ IH]; intros a; [done|].
  simpl. by rewrite Hc.
Qed.

Lemma wordStarts_app_blank (a : bool) (u w : jsstring) :
  blank w → wordStarts a (u ++ w) = wordStarts a u.
Proof.
  intros Hw. revert a. induction u as [|c u IH]; intros a; simpl.
  - by apply wordStarts_blank.
  - destruct (isWhiteSpace c); by rewrite IH.
Qed.

Lemma wordStarts_blank_app (w u : jsstring) :
  blank w → wordStarts true (w ++ u) = wordStarts true u.
Proof.
  induction 1 as [|c w Hc _ IH]; [done|]. simpl. by rewrite Hc.
Qed.

Lemma words_trim (s : jsstring) : words (trim s) = words s.
Proof.
  unfold words, trim.
  destruct (trimStart_prefix s) as (w & Hw & Hs).
  destruct (trimEnd_suffix (trimStart s)) as (w' & Hw' & Hs').
  rewrite Hs at 2. rewrite (wordStarts_blank_app _ _ Hw).
  rewrite Hs' at 2. by rewrite (wordStarts_app_blank _ _ _ Hw').
Qed.

Lemma length_splitRuns (r : bool) (p s : jsstring) :
  (length (splitRuns r p s) + (if r then 1 else 0)
   = wordStarts r s + 1 + (if endsInSpace r s then 1 else 0))%nat.
Proof.
  revert r p. induction s as [|c s IH]; intros r p; simpl.
  - destruct r; lia.
  - destruct (isWhiteSpace c).
    + destruct r; simpl; pose proof (IH true []); simpl in *; lia.
    + pose proof (IH false (c :: p)). destruct r; simpl in *; lia.
Qed.

Lemma endsInSpace_snoc (r : bool) (s : jsstring) (c : N) :
  endsInSpace r (s ++ [c]) = isWhiteSpace c.
Proof. revert r. induction s as [|d s IH]; intros r; simpl; [done|apply IH]. Qed.

(** A trimmed text that is not empty begins and ends with a character
    that is not whitespace. *)
Lemma trim_ends (s : jsstring) :
  trim s ≠ [] →
  (∃ c t, trim s = c :: t ∧ isWhiteSpace c = false)
  ∧ endsInSpace false (trim s) = false.
Proof.
  intros Hne. split.
  - unfold trim in *.
    destruct (trimStart_head s) as [E|(c & t & E & Hc)].
    { rewrite E in Hne. by destruct Hne. }
    destruct (trimEnd_suffix (trimStart s)) as (w & Hw & Hs).
    destruct (trimEnd (trimStart s)) as [|d rest] eqn:Ed; [done|].
    rewrite E in Hs. simpl in Hs. injection Hs as -> _.
    by exists d, rest.
  - unfold trim, trimEnd in *.
    destruct (trimStart_head (reverse (trimStart s))) as [E|(c & t & E & Hc)].
    { rewrite E in Hne. by destruct Hne. }
    rewrite E, reverse_cons. by rewrite endsInSpace_snoc.
Qed.

Lemma wordStarts_le_length (a : bool) (s : jsstring) :
  (wordStarts a s ≤ length s)%nat.
Proof.
  revert a. induction s as [|c s IH]; intros a; simpl; [lia|].
  destruct (isWhiteSpace c); [specialize (IH true)|specialize (IH false)];
    destruct a; lia.
Qed.

(** X1. The word count shown under the text input is the number of
    words of the text, a word beginning at every character that is not
    whitespace and stands first or after whitespace; it is 0 exactly
    when the text is empty or whitespace only, and never more than the
    character count. *)
Theorem wordCount_counts_words (text : jsstring) :
  wordCount text = words text
  ∧ (wordCount text = 0%nat ↔ blank text)
  ∧ (wordCount text ≤ length text)%nat.
Proof.
  assert (H : wordCount text = words text).
  { unfold wordCount. rewrite <- words_trim.
    destruct (trim text) as [|c t] eqn:E; [done|].
    change (isEmpty (c :: t)) with false. cbv iota.
    assert (Hne : trim text ≠ []) by (by rewrite E).
    destruct (trim_ends text Hne) as [(c' & t' & E' & Hc) Hend].
    rewrite E in E', Hend. injection E' as <- <-.
    pose proof (length_splitRuns false [] (c :: t)) as Hl.
    rewrite Hend in Hl. unfold split, words.
    assert (Ht : wordStarts true (c :: t) = S (wordStarts false t))
      by (simpl; by rewrite Hc).
    assert (Hf : wordStarts false (c :: t) = wordStarts false t)
      by (simpl; by rewrite Hc).
    rewrite Ht. rewrite Hf in Hl. lia. }
  split; [exact H|]. split.
  - unfold wordCount. rewrite <- isEmpty_trim.
    destruct (isEmpty (trim text)) eqn:E; [done|].
    split; [|done]. intros H0. exfalso.
    pose proof (length_splitRuns false [] (trim text)) as Hl.
    unfold split in H0. rewrite H0 in Hl.
    destruct (endsInSpace false (trim text)); simpl in Hl; lia.
  - rewrite H. apply wordStarts_le_length.
Qed.

End WordCountProps.

(** ** StateDemo: sessions *)

Section StateDemoSessions.
Import StateDemo Session SessionMore.

Lemma count_run_no_reset (es : list Event) (s : State) :
  Forall (λ e, e ≠ ClickReset) es →
  count (run es s)
  = count s + Z.of_nat (increments es) - Z.of_nat (decrements es)
    + 10 * Z.of_nat (plusTens es).
Proof.
  unfold increments, decrements, plusTens.
  intros H. revert s. induction H as [|e es He _ IH]; intros s.
  - simpl. lia.
  - rewrite run_cons, IH, count_step, !filter_cons.
    destruct e; repeat case_decide; try done; simpl length; lia.
Qed.

Lemma run_app (es es' : list Event) (s : State) :
  run (es ++ es') s = run es' (run es s).
Proof. unfold run. apply foldl_app. Qed.

(** X2. Counter card with all four buttons: in a session without
    reset the count moves by +1, -1 and +10 per click of the respective
    button; a reset click makes everything before it irrelevant, the
    count being what the clicks after the last reset add up to. *)
Theorem counter_after_last_reset (before after : list Event) (s : State) :
  Forall (λ e, e ≠ ClickReset) after →
  count (run after s)
  = count s + Z.of_nat (increments after) - Z.of_nat (decrements after)
    + 10 * Z.of_nat (plusTens after)
  ∧ count (run (before ++ ClickReset :: after) s)
    = Z.of_nat (increments after) - Z.of_nat (decrements after)
      + 10 * Z.of_nat (plusTens after).
Proof.
  intros H. split; [by apply count_run_no_reset|].
  rewrite run_app, run_cons, (count_run_no_reset _ _ H), count_step. lia.
Qed.

Lemma counter_after_last_reset_witness :
  Forall (λ e, e ≠ ClickReset) [ClickPlusTen; ClickDecrement; ClickPlusTen]
  ∧ count (run ([ClickIncrement; ClickPlusTen] ++
                ClickReset :: [ClickPlusTen; ClickDecrement; ClickPlusTen]) init)
    = 0 - 1 + 10 * 2.
Proof.
  assert (H : Forall (λ e, e ≠ ClickReset) [ClickPlusTen; ClickDecrement; ClickPlusTen])
    by (repeat constructor; discriminate).
  split; [exact H|].
  exact (proj2 (counter_after_last_reset [ClickIncrement; ClickPlusTen] _ init H)).
Defined.

Lemma user_step (s : State) (e : Event) :
  user (step s e) =
  match e with
  | NameBlur v => mkUser v (age (user s)) (email (user s))
  | ClickIncreaseAge => mkUser (name (user s)) (age (user s) + 1) (email (user s))
  | _ => user s
  end.
Proof.
  destruct e; try reflexivity.
  unfold step, dispatch, handler, addTodo.
  by destruct (isEmpty (trim (newTodo s))).
Qed.

(** X3. User card: after any session the age is the initial 25 plus
    the number of clicks on the age button, whatever names were entered
    in between, and the e-mail address is the initial one. *)
Theorem user_age_counts_clicks (es : list Event) :
  age (user (run es init)) = 25 + Z.of_nat (ageClicks es)
  ∧ email (user (run es init)) = lit "john@example.com".
Proof.
  enough (H : ∀ s, age (user (run es s)) = age (user s) + Z.of_nat (ageClicks es)
                   ∧ email (user (run es s)) = email (user s))
    by apply (H init).
  unfold ageClicks. induction es as [|e es IH]; intros s.
  - simpl. split; [lia|done].
  - rewrite run_cons. destruct (IH (step s e)) as [-> ->].
    rewrite user_step, filter_cons.
    destruct e; repeat case_decide; try done; simpl; split; (done || lia).
Qed.

Lemma todos_step (s : State) (e : Event) :
  todos (step s e) =
  match e with
  | ClickAdd now =>
      if isEmpty (trim (newTodo s)) then todos s
      else todos s ++ [Todo.mk now (newTodo s) false]
  | CheckTodo i => toggleItem i <$> todos s
  | ClickDelete i => filter (λ todo, Todo.id todo ≠ i) (todos s)
  | _ => todos s
  end.
Proof.
  destruct e; try reflexivity.
  unfold step, dispatch, handler, addTodo.
  by destruct (isEmpty (trim (newTodo s))).
Qed.

Lemma toggle_keeps_ids (i : Z) (l : list Todo.t) :
  Todo.id <$> (toggleItem i <$> l) = Todo.id <$> l.
Proof.
  rewrite <- list_fmap_compose. apply list_fmap_ext.
  intros ? t _. apply toggleItem_id.
Qed.

Lemma rising_clock_keeps_ids_distinct (es : list Event) (s : State) (bound : Z) :
  NoDup (Todo.id <$> todos s) →
  Forall (λ i, i ≤ bound) (Todo.id <$> todos s) →
  clockRises bound es →
  NoDup (Todo.id <$> todos (run es s)).
Proof.
  revert s bound. induction es as [|e es IH]; intros s bound Hnd Hle Hrise; [done|].
  rewrite run_cons.
  assert (Hother : todos (step s e) = todos s → clockRises bound es →
                   NoDup (Todo.id <$> todos (run es (step s e)))).
  { intros E Hr. apply (IH _ bound); [by rewrite E|by rewrite E|done]. }
  destruct e; try (apply Hother; [by rewrite todos_step|exact Hrise]).
  - destruct Hrise as [Hlt Hrise].
    apply (IH _ now); [| |done]; rewrite todos_step;
      destruct (isEmpty (trim (newTodo s))).
    + done.
    + apply snoc_keeps_keys_distinct; [done|]. simpl.
      intros Hin. rewrite Forall_forall in Hle. specialize (Hle _ Hin). lia.
    + eapply Forall_impl; [exact Hle|]. simpl. lia.
    + rewrite fmap_app. apply Forall_app. split.
      * eapply Forall_impl; [exact Hle|]. simpl. lia.
      * repeat constructor. simpl. lia.
  - apply (IH _ bound); [| |done]; rewrite todos_step, toggle_keeps_ids; done.
  - apply (IH _ bound); [| |done]; rewrite todos_step.
    + apply (NoDup_fmap_2_strong Todo.id).
      * intros x y Hx Hy Hxy.
        apply list_elem_of_filter in Hx as [_ Hx].
        apply list_elem_of_filter in Hy as [_ Hy].
        apply list_elem_of_lookup in Hx as [kx Hx].
        apply list_elem_of_lookup in Hy as [ky Hy].
        assert (kx = ky).
        { apply (NoDup_lookup (Todo.id <$> todos s) kx ky (Todo.id x)); [done| |].
          - by rewrite list_lookup_fmap, Hx.
          - by rewrite list_lookup_fmap, Hy, Hxy. }
        subst. congruence.
      * apply NoDup_filter. by apply NoDup_fmap_1 in Hnd.
    + rewrite Forall_fmap in *. apply Forall_forall. intros x Hx.
      apply list_elem_of_filter in Hx as [_ Hx].
      rewrite Forall_forall in Hle. by apply Hle.
Qed.

(** X4. Todo list under a rising clock: when the clock reading of every
    add is later than 2 and than the reading of the add before, the
    identifiers are pairwise distinct after any session, and so a
    delete click on an identifier that is present takes exactly one
    record out. *)
Theorem rising_clock_session_has_distinct_ids (es : list Event) :
  clockRises 2 es →
  NoDup (Todo.id <$> todos (run es init))
  ∧ (∀ i, i ∈ Todo.id <$> todos (run es init) →
       S (length (todos (step (run es init) (ClickDelete i))))
       = length (todos (run es init))).
Proof.
  intros Hrise.
  assert (Hnd : NoDup (Todo.id <$> todos (run es init))).
  { apply (rising_clock_keeps_ids_distinct es init 2); [compute_done| |done].
    repeat constructor; simpl; lia. }
  split; [done|]. intros i Hi.
  destruct (filter_other_keys_cut Todo.id _ i Hnd Hi) as (l1 & t & l2 & Hl & _ & Hf).
  rewrite todos_step, Hf, Hl, !length_app. simpl. lia.
Qed.

Lemma rising_clock_session_has_distinct_ids_witness :
  clockRises 2 [NewTodoChange (lit "a"); ClickAdd 10; NewTodoChange (lit "b");
                ClickAdd 11; ClickDelete 1]
  ∧ NoDup (Todo.id <$> todos (run [NewTodoChange (lit "a"); ClickAdd 10;
                                   NewTodoChange (lit "b"); ClickAdd 11;
                                   ClickDelete 1] init)).
Proof.
  assert (H : clockRises 2 [NewTodoChange (lit "a"); ClickAdd 10;
                            NewTodoChange (lit "b"); ClickAdd 11; ClickDelete 1])
    by (simpl; lia).
  split; [exact H|].
  exact (proj1 (rising_clock_session_has_distinct_ids _ H)).
Defined.

End StateDemoSessions.

(** ** Composing the list operations *)

Section KeyedMore.
Context {A : Type} (key : A → Z).

Lemma filter_snoc_same_key (l : list A) (x : A) :
  key x ∉ key <$> l → filter (λ y, key y ≠ key x) (l ++ [x]) = l.
Proof.
  intros H. rewrite filter_app, filter_cons_False by (intros E; by apply E).
  rewrite filter_nil, app_nil_r. by apply filter_other_keys_absent.
Qed.

Lemma filter_key_gone (l : list A) (i : Z) :
  i ∉ key <$> filter (λ y, key y ≠ i) l.
Proof.
  intros H. apply list_elem_of_fmap in H as (x & -> & Hx).
  apply list_elem_of_filter in Hx as [Hx _]. by apply Hx.
Qed.

Lemma filter_keys_comm (l : list A) (i j : Z) :
  filter (λ y, key y ≠ i) (filter (λ y, key y ≠ j) l)
  = filter (λ y, key y ≠ j) (filter (λ y, key y ≠ i) l).
Proof.
  induction l as [|x l IH]; [done|].
  rewrite !filter_cons.
  destruct (decide (key x ≠ i)), (decide (key x ≠ j));
    rewrite ?filter_cons; repeat case_decide; try done; by rewrite IH.
Qed.

End KeyedMore.

Section ListComposition.
Import StateDemo.

Lemma step_delete (s : State) (i : Z) :
  step s (ClickDelete i) = setTodos (filter (λ todo, Todo.id todo ≠ i) (todos s)) s.
Proof. reflexivity. Qed.

Lemma step_check (s : State) (i : Z) :
  step s (CheckTodo i) = setTodos (toggleItem i <$> todos s) s.
Proof. reflexivity. Qed.

Lemma setTodos_setTodos (l l' : list Todo.t) (s : State) :
  setTodos l (setTodos l' s) = setTodos l s.
Proof. reflexivity. Qed.

Lemma setTodos_same (s : State) : setTodos (todos s) s = s.
Proof. by destruct s. Qed.

(** X5. Adding a record and then removing it by its identifier gives
    the list back, when the clock reading used as identifier was not
    yet in the list: in the todo list of StateDemo, in that of
    CommonPatternsExample (both with a non-blank input), and in the
    keyed list. *)
Theorem add_then_remove_restores_list :
  (∀ (s : State) (now : Z),
     ¬ blank (newTodo s) → now ∉ Todo.id <$> todos s →
     todos (run [ClickAdd now; ClickDelete now] s) = todos s)
  ∧ (∀ (c : CommonPatterns.State) (now : Z),
       ¬ blank (CommonPatterns.input c) →
       now ∉ CommonPatterns.id <$> CommonPatterns.todos c →
       CommonPatterns.todos
         (dispatch (CommonPatterns.deleteTodo now)
            (dispatch (CommonPatterns.addTodo now) c))
       = CommonPatterns.todos c)
  ∧ (∀ (items : list KeyDemo.Item) (now : Z) (hsl : jsstring),
       now ∉ KeyDemo.id <$> items →
       dispatch (KeyDemo.removeItem now) (dispatch (KeyDemo.addItem now hsl) items)
       = items).
Proof.
  split; [|split].
  - intros s now Hs Hnow.
    change (run [ClickAdd now; ClickDelete now] s)
      with (step (step s (ClickAdd now)) (ClickDelete now)).
    rewrite (addTodo_appends s now Hs), step_delete.
    change (todos (setTodos ?l _)) with l.
    change (todos (setNewTodo _ (setTodos ?l _))) with l.
    exact (filter_snoc_same_key Todo.id (todos s) (Todo.mk now (newTodo s) false) Hnow).
  - intros c now Hc Hnow.
    unfold dispatch at 2. unfold CommonPatterns.addTodo.
    destruct (Js.truthy (trim (CommonPatterns.input c))) eqn:E.
    + exact (filter_snoc_same_key CommonPatterns.id (CommonPatterns.todos c)
               (CommonPatterns.mkTodo now (CommonPatterns.input c) false) Hnow).
    + by apply truthy_trim in E.
  - intros items now hsl Hnow.
    exact (filter_snoc_same_key KeyDemo.id items
             (KeyDemo.mkItem now
                (lit "Item " ++ lit (pretty (N.of_nat (length items + 1)))) hsl) Hnow).
Qed.

Lemma add_then_remove_restores_list_witness :
  (¬ blank (newTodo (setNewTodo (lit "x") init))
   ∧ (7 ∉ Todo.id <$> todos (setNewTodo (lit "x") init))
   ∧ todos (run [ClickAdd 7; ClickDelete 7] (setNewTodo (lit "x") init)) = todos init)
  ∧ ((7 ∉ KeyDemo.id <$> KeyDemo.init)
     ∧ dispatch (KeyDemo.removeItem 7)
         (dispatch (KeyDemo.addItem 7 (lit "hsl(1, 70%, 85%)")) KeyDemo.init)
       = KeyDemo.init).
Proof.
  destruct add_then_remove_restores_list as (Hs & _ & Hk).
  assert (Hb : ¬ blank (newTodo (setNewTodo (lit "x") init))).
  { intros H. apply Forall_cons in H as [H _]. discriminate H. }
  assert (Hf : 7 ∉ Todo.id <$> todos (setNewTodo (lit "x") init)) by compute_done.
  assert (Kf : 7 ∉ KeyDemo.id <$> KeyDemo.init) by compute_done.
  split; [split; [exact Hb|split; [exact Hf|exact (Hs _ 7 Hb Hf)]]|].
  split; [exact Kf|exact (Hk _ 7 _ Kf)].
Defined.

(** X6. Deleting from the todo list, for every list, duplicates
    included: afterwards no record has the identifier; deleting an
    identifier that is not in the list leaves the whole state as it
    was; deleting twice is deleting once; and two deletes give the same
    state in either order. *)
Theorem deleteTodo_composes (s : State) (i j : Z) :
  (i ∉ Todo.id <$> todos (step s (ClickDelete i)))
  ∧ ((i ∉ Todo.id <$> todos s) → step s (ClickDelete i) = s)
  ∧ step (step s (ClickDelete i)) (ClickDelete i) = step s (ClickDelete i)
  ∧ step (step s (ClickDelete i)) (ClickDelete j)
    = step (step s (ClickDelete j)) (ClickDelete i).
Proof.
  rewrite !step_delete.
  change (todos (setTodos ?l _)) with l.
  split; [apply filter_key_gone|]. split; [|split].
  - intros H. rewrite (filter_other_keys_absent Todo.id _ _ H). apply setTodos_same.
  - rewrite setTodos_setTodos. f_equal.
    apply (filter_other_keys_absent Todo.id), filter_key_gone.
  - rewrite !setTodos_setTodos. f_equal. apply (filter_keys_comm Todo.id).
Qed.

Lemma deleteTodo_composes_witness :
  (5 ∉ Todo.id <$> todos init) ∧ step init (ClickDelete 5) = init.
Proof.
  assert (H : 5 ∉ Todo.id <$> todos init) by compute_done.
  split; [exact H|].
  destruct (deleteTodo_composes init 5 5) as (_ & Habsent & _).
  exact (Habsent H).
Defined.

Lemma toggleItem_twice (i : Z) (t : Todo.t) : toggleItem i (toggleItem i t) = t.
Proof.
  destruct t as [k x b]. unfold toggleItem. simpl.
  destruct (decide (k = i)) as [E|E]; simpl;
    rewrite ?decide_True, ?decide_False by done;
    by rewrite ?negb_involutive.
Qed.

Lemma toggleItem_comm (i j : Z) (t : Todo.t) :
  toggleItem i (toggleItem j t) = toggleItem j (toggleItem i t).
Proof.
  destruct t as [k x b]. unfold toggleItem. simpl.
  destruct (decide (k = i)), (decide (k = j)); simpl;
    repeat case_decide; done.
Qed.

Lemma common_toggleItem_twice (i : Z) (t : CommonPatterns.Todo) :
  CommonPatterns.toggleItem i (CommonPatterns.toggleItem i t) = t.
Proof.
  destruct t as [k x b]. unfold CommonPatterns.toggleItem. simpl.
  destruct (decide (k = i)) as [E|E]; simpl;
    rewrite ?decide_True, ?decide_False by done;
    by rewrite ?negb_involutive.
Qed.

(** X7. Toggling a todo, for every list, duplicates included: two
    clicks on the same checkbox bring the whole state back, in
    StateDemo and in CommonPatternsExample; clicks on two checkboxes
    give the same state in either order; and a toggle followed by the
    delete of the same identifier is that delete alone. *)
Theorem toggleTodo_composes (s : State) (c : CommonPatterns.State) (i j : Z) :
  step (step s (CheckTodo i)) (CheckTodo i) = s
  ∧ dispatch (CommonPatterns.toggleTodo i) (dispatch (CommonPatterns.toggleTodo i) c) = c
  ∧ step (step s (CheckTodo i)) (CheckTodo j) = step (step s (CheckTodo j)) (CheckTodo i)
  ∧ step (step s (CheckTodo i)) (ClickDelete i) = step s (ClickDelete i).
Proof.
  split; [|split; [|split]].
  - rewrite !step_check. change (todos (setTodos ?l _)) with l.
    rewrite setTodos_setTodos, <- list_fmap_compose.
    rewrite (list_fmap_ext (toggleItem i ∘ toggleItem i) id (todos s))
      by (intros; apply toggleItem_twice).
    rewrite list_fmap_id. apply setTodos_same.
  - destruct c as [l inp].
    change (CommonPatterns.mkState
              (CommonPatterns.toggleItem i <$> (CommonPatterns.toggleItem i <$> l)) inp
            = CommonPatterns.mkState l inp).
    f_equal. rewrite <- list_fmap_compose.
    rewrite (list_fmap_ext (CommonPatterns.toggleItem i ∘ CommonPatterns.toggleItem i) id l)
      by (intros; apply common_toggleItem_twice).
    apply list_fmap_id.
  - rewrite !step_check. change (todos (setTodos ?l _)) with l.
    rewrite !setTodos_setTodos. f_equal.
    rewrite <- !list_fmap_compose. apply list_fmap_ext.
    intros ? t _. apply toggleItem_comm.
  - rewrite step_check, !step_delete. change (todos (setTodos ?l _)) with l.
    rewrite setTodos_setTodos. f_equal.
    induction (todos s) as [|t l IH]; [done|].
    rewrite fmap_cons, !filter_cons, toggleItem_id.
    case_decide; [|done].
    rewrite IH. f_equal. unfold toggleItem. by rewrite decide_False.
Qed.

End ListComposition.

(** ** FunctionalUpdatesExample, StateBatchingExample, PerformanceDemo *)

Section BatchedUpdates.

(** X8. Three updates in one handler: a click on the button whose
    handler sets [count + 1] three times advances the count by 1, a
    click on the one that uses functional updates by 3; so without
    reset the count is where it started plus the first kind of clicks
    plus three times the second. *)
Theorem functional_updates_add_up (es : list FunctionalUpdates.Event) (count : Z) :
  Forall (λ e, e ≠ FunctionalUpdates.ClickReset) es →
  FunctionalUpdates.run es count
  = count + Z.of_nat (FunctionalUpdates.bads es)
    + 3 * Z.of_nat (FunctionalUpdates.goods es).
Proof.
  unfold FunctionalUpdates.bads, FunctionalUpdates.goods.
  intros H. revert count. induction H as [|e es He _ IH]; intros count.
  - simpl. lia.
  - change (FunctionalUpdates.run (e :: es) count)
      with (FunctionalUpdates.run es (FunctionalUpdates.step count e)).
    rewrite IH, !filter_cons.
    destruct e; repeat case_decide; try done; simpl length;
      unfold FunctionalUpdates.step, dispatch, commit; simpl; lia.
Qed.

Lemma functional_updates_add_up_witness :
  Forall (λ e, e ≠ FunctionalUpdates.ClickReset)
    [FunctionalUpdates.ClickBad; FunctionalUpdates.ClickGood; FunctionalUpdates.ClickBad]
  ∧ FunctionalUpdates.run
      [FunctionalUpdates.ClickBad; FunctionalUpdates.ClickGood; FunctionalUpdates.ClickBad] 0
    = 0 + 2 + 3 * 1.
Proof.
  assert (H : Forall (λ e, e ≠ FunctionalUpdates.ClickReset)
                [FunctionalUpdates.ClickBad; FunctionalUpdates.ClickGood;
                 FunctionalUpdates.ClickBad])
    by (repeat constructor; discriminate).
  split; [exact H|].
  exact (functional_updates_add_up _ 0 H).
Defined.

(** X9. Batched updates of two cells: after [n] clicks the count is up
    by [2 n], the flag is inverted when [n] is odd and as before when
    [n] is even, and the render counter cell is untouched. *)
Theorem batched_clicks (n : nat) (s : StateBatching.State) :
  StateBatching.count (StateBatching.clicks n s)
  = StateBatching.count s + 2 * Z.of_nat n
  ∧ StateBatching.flag (StateBatching.clicks n s)
    = (if Nat.even n then StateBatching.flag s else negb (StateBatching.flag s))
  ∧ StateBatching.renderCount (StateBatching.clicks n s)
    = StateBatching.renderCount s.
Proof.
  induction n as [|n (IHc & IHf & IHr)].
  - simpl. repeat split. lia.
  - change (StateBatching.clicks (S n) s)
      with (dispatch StateBatching.handleMultipleUpdates (StateBatching.clicks n s)).
    rewrite Nat.even_succ, <- Nat.negb_even.
    destruct (StateBatching.clicks n s) as [c f r].
    cbn [StateBatching.count StateBatching.flag StateBatching.renderCount] in *.
    subst. repeat split; [simpl; lia|simpl].
    destruct (Nat.even n); simpl; by rewrite ?negb_involutive.
Qed.

Lemma commit_replicate {St : Type} (n : nat) (f : St → St) (q : list (St → St)) (s : St) :
  commit (replicate n f ++ q) s = commit q (Nat.iter n f s).
Proof.
  unfold commit. rewrite foldl_app. f_equal.
  revert s. induction n as [|n IH]; intros s; [done|].
  change (foldl (λ st u, u st) s (replicate (S n) f))
    with (foldl (λ st u, u st) (f s) (replicate n f)).
  rewrite IH. symmetry. apply Nat.iter_succ_r.
Qed.

Lemma updateCount_iter (n : nat) (s : PerformanceDemo.State) :
  Nat.iter n (λ st, PerformanceDemo.setUpdateCount (PerformanceDemo.updateCount st + 1) st) s
  = PerformanceDemo.setUpdateCount (PerformanceDemo.updateCount s + Z.of_nat n) s.
Proof.
  induction n as [|n IH].
  - destruct s. unfold PerformanceDemo.setUpdateCount. simpl. f_equal. lia.
  - rewrite Nat.iter_succ, IH. unfold PerformanceDemo.setUpdateCount. simpl.
    f_equal. lia.
Qed.

Lemma performance_step (s : PerformanceDemo.State) (e : PerformanceDemo.Event) :
  PerformanceDemo.step s e
  = PerformanceDemo.mkState
      (PerformanceDemo.updateCount s + (if PerformanceDemo.isMass e then 100 else 1))
      (Some (PerformanceDemo.elapsedOf e)).
Proof.
  destruct e as [t|t]; [reflexivity|].
  unfold PerformanceDemo.step, dispatch, PerformanceDemo.handler,
    PerformanceDemo.simulateMassUpdate.
  rewrite commit_replicate, updateCount_iter. reflexivity.
Qed.

(** X10. Performance demo: a single update adds 1 to the update count
    and the loop of a hundred functional updates adds exactly 100, none
    being lost in the batch; after a session the count is the single
    clicks plus 100 times the mass clicks, and the time shown is that
    of the last click, none before the first. *)
Theorem mass_update_adds_hundred (es : list PerformanceDemo.Event) :
  PerformanceDemo.updateCount (PerformanceDemo.run es PerformanceDemo.init)
  = Z.of_nat (length (filter (λ e, PerformanceDemo.isMass e = false) es))
    + 100 * Z.of_nat (length (filter (λ e, PerformanceDemo.isMass e = true) es))
  ∧ PerformanceDemo.lastUpdateTime (PerformanceDemo.run es PerformanceDemo.init)
    = PerformanceDemo.elapsedOf <$> last es.
Proof.
  enough (H : ∀ s,
    PerformanceDemo.updateCount (PerformanceDemo.run es s)
    = PerformanceDemo.updateCount s
      + Z.of_nat (length (filter (λ e, PerformanceDemo.isMass e = false) es))
      + 100 * Z.of_nat (length (filter (λ e, PerformanceDemo.isMass e = true) es))
    ∧ PerformanceDemo.lastUpdateTime (PerformanceDemo.run es s)
      = from_option Some (PerformanceDemo.lastUpdateTime s)
          (PerformanceDemo.elapsedOf <$> last es)).
  { destruct (H PerformanceDemo.init) as [Hc Ht]. split.
    - rewrite Hc. simpl. lia.
    - rewrite Ht. by destruct (last es). }
  induction es as [|e es IH]; intros s.
  - simpl. split; [lia|done].
  - change (PerformanceDemo.run (e :: es) s)
      with (PerformanceDemo.run es (PerformanceDemo.step s e)).
    destruct (IH (PerformanceDemo.step s e)) as [-> ->].
    rewrite performance_step, !filter_cons. simpl PerformanceDemo.updateCount.
    simpl PerformanceDemo.lastUpdateTime. split.
    + destruct e; simpl; repeat case_decide; try done; simpl length; lia.
    + destruct es as [|e' es]; [done|]. rewrite last_cons_cons.
      destruct (last (e' :: es)) eqn:E; [done|]. by apply last_None in E.
Qed.

End BatchedUpdates.

(** ** DerivedStateExample *)

Section DerivedStateProps.
Import DerivedState.

Lemma withQuantity_fields (i q : Z) (item : Item) :
  id (withQuantity i q item) = id item
  ∧ name (withQuantity i q item) = name item
  ∧ price (withQuantity i q item) = price item.
Proof. unfold withQuantity. by case_decide. Qed.

Lemma withQuantity_absent (i q : Z) (l : list Item) :
  i ∉ id <$> l → withQuantity i q <$> l = l.
Proof.
  induction l as [|x l IH]; [done|].
  rewrite !fmap_cons, not_elem_of_cons. intros [Hx Hl].
  rewrite IH by done. unfold withQuantity. by rewrite decide_False.
Qed.

Lemma step_fields (items : list Item) (e : Event) :
  id <$> step items e = id <$> items
  ∧ name <$> step items e = name <$> items
  ∧ price <$> step items e = price <$> items.
Proof.
  assert (H : ∀ i q, id <$> (withQuantity i q <$> items) = id <$> items
                     ∧ name <$> (withQuantity i q <$> items) = name <$> items
                     ∧ price <$> (withQuantity i q <$> items) = price <$> items).
  { intros i q. rewrite <- !list_fmap_compose.
    repeat split; apply list_fmap_ext; intros ? x _; simpl;
      apply (withQuantity_fields i q x). }
  destruct e as [k|k]; simpl; destruct (items !! k); try done; apply H.
Qed.

Lemma step_quantities (items : list Item) (e : Event) :
  Forall (λ item, 0 ≤ quantity item) items →
  Forall (λ item, 0 ≤ quantity item) (step items e).
Proof.
  intros H.
  assert (Hq : ∀ i q, 0 ≤ q →
            Forall (λ item, 0 ≤ quantity item) (withQuantity i q <$> items)).
  { intros i q Hq. apply Forall_fmap. eapply Forall_impl; [exact H|].
    intros x Hx. simpl in *. unfold withQuantity. case_decide; simpl; lia. }
  destruct e as [k|k]; simpl; destruct (items !! k) as [item|] eqn:E; try done.
  - apply Hq. lia.
  - apply Hq. rewrite Forall_forall in H.
    specialize (H item (list_elem_of_lookup_2 _ _ _ E)). simpl in H. lia.
Qed.

(** X11. The cart: after any sequence of clicks on the minus and plus
    buttons the rows, their names and their prices are the initial
    ones, in the initial order, and no quantity is negative (minus on a
    quantity of 0 leaves 0). *)
Theorem cart_rows_stay_and_quantities_nonnegative (es : list Event) :
  id <$> run es init = [1; 2; 3]
  ∧ name <$> run es init = name <$> init
  ∧ price <$> run es init = price <$> init
  ∧ Forall (λ item, 0 ≤ quantity item) (run es init).
Proof.
  enough (H : ∀ items, Forall (λ item, 0 ≤ quantity item) items →
                id <$> run es items = id <$> items
                ∧ name <$> run es items = name <$> items
                ∧ price <$> run es items = price <$> items
                ∧ Forall (λ item, 0 ≤ quantity item) (run es items)).
  { apply (H init). repeat constructor; simpl; lia. }
  induction es as [|e es IH]; intros items Hq; [done|].
  change (run (e :: es) items) with (run es (step items e)).
  destruct (IH (step items e) (step_quantities items e Hq)) as (-> & -> & -> & Hq').
  destruct (step_fields items e) as (-> & -> & ->). done.
Qed.

Lemma totalItems_from (a : Z) (l : list Item) :
  foldl (λ sum item, sum + quantity item) a l = a + totalItems l.
Proof.
  unfold totalItems. revert a. induction l as [|x l IH]; intros a; simpl; [lia|].
  rewrite (IH (a + quantity x)), (IH (0 + quantity x)). lia.
Qed.

Lemma totalItems_app (l1 l2 : list Item) :
  totalItems (l1 ++ l2) = totalItems l1 + totalItems l2.
Proof. unfold totalItems at 1. rewrite foldl_app. apply totalItems_from. Qed.

Lemma totalItems_cons (x : Item) (l : list Item) :
  totalItems (x :: l) = quantity x + totalItems l.
Proof. unfold totalItems at 1. simpl. apply totalItems_from. Qed.

Lemma totalItems_updateQuantity (items : list Item) (k : nat) (item : Item) (q : Z) :
  NoDup (id <$> items) → items !! k = Some item →
  totalItems (dispatch (updateQuantity (id item) q) items)
  = totalItems items - quantity item + q.
Proof.
  intros Hnd Hk.
  change (dispatch (updateQuantity (id item) q) items)
    with (withQuantity (id item) q <$> items).
  rewrite <- (take_drop_middle items k item Hk) in Hnd |- *.
  rewrite fmap_app, fmap_cons in Hnd.
  apply NoDup_app in Hnd as (_ & H1 & Hnd).
  apply NoDup_cons in Hnd as [H2 _].
  rewrite fmap_app, fmap_cons.
  rewrite !withQuantity_absent; [|done|].
  - rewrite !totalItems_app, !totalItems_cons.
    unfold withQuantity. rewrite decide_True by done. simpl. lia.
  - intros Hin. apply (H1 _ Hin). by left.
Qed.

(** X12. The derived total follows the cart: in a cart whose rows have
    pairwise distinct identifiers, a click on the plus button of a row
    raises the total number of items by exactly 1, and a click on its
    minus button lowers it by exactly 1, or leaves it when the row's
    quantity is 0. *)
Theorem totalItems_follows_clicks (items : list Item) (row : nat) (item : Item) :
  NoDup (id <$> items) → items !! row = Some item → 0 ≤ quantity item →
  totalItems (step items (ClickPlus row)) = totalItems items + 1
  ∧ totalItems (step items (ClickMinus row))
    = totalItems items - (if decide (quantity item = 0) then 0 else 1).
Proof.
  intros Hnd Hk Hq. simpl. rewrite Hk. unfold plus, minus.
  rewrite !(totalItems_updateQuantity items row item _ Hnd Hk).
  split; [lia|]. case_decide; lia.
Qed.

Lemma totalItems_follows_clicks_witness :
  NoDup (id <$> init) ∧ init !! 1%nat = Some (mkItem 2 (lit "Banana") (99 # 100) 5)
  ∧ totalItems (step init (ClickPlus 1)) = totalItems init + 1
  ∧ totalItems (step init (ClickMinus 1)) = totalItems init - 1.
Proof.
  assert (Hnd : NoDup (id <$> init)) by compute_done.
  assert (Hk : init !! 1%nat = Some (mkItem 2 (lit "Banana") (99 # 100) 5))
    by reflexivity.
  split; [exact Hnd|]. split; [exact Hk|].
  exact (totalItems_follows_clicks init 1 _ Hnd Hk ltac:(simpl; lia)).
Defined.

End DerivedStateProps.

(** ** RefVsStateExample and PreviousValueExample *)

Section RefProps.

Lemma refVsState_counts (es : list RefVsState.Event) (w : RefVsState.World) :
  RefVsState.stateCount (RefVsState.run es w)
  = RefVsState.stateCount w + Z.of_nat (RefVsState.stateClicks es)
  ∧ RefVsState.refCount (RefVsState.run es w)
    = RefVsState.refCount w + Z.of_nat (RefVsState.refClicks es)
  ∧ RefVsState.renderCount (RefVsState.run es w)
    = RefVsState.renderCount w + Z.of_nat (RefVsState.stateClicks es).
Proof.
  unfold RefVsState.stateClicks, RefVsState.refClicks.
  revert w. induction es as [|e es IH]; intros w.
  - simpl. repeat split; lia.
  - change (RefVsState.run (e :: es) w)
      with (RefVsState.run es (RefVsState.step w e)).
    destruct (IH (RefVsState.step w e)) as (-> & -> & ->).
    rewrite !filter_cons.
    destruct e; repeat case_decide; try done; simpl; repeat split; lia.
Qed.

Lemma refVsState_screen (es : list RefVsState.Event) (w : RefVsState.World) :
  RefVsState.shownState (RefVsState.screen w) = RefVsState.stateCount w →
  RefVsState.shownRenders (RefVsState.screen w) = RefVsState.renderCount w - 1 →
  RefVsState.shownRef (RefVsState.screen w) ≤ RefVsState.refCount w →
  RefVsState.shownState (RefVsState.screen (RefVsState.run es w))
  = RefVsState.stateCount (RefVsState.run es w)
  ∧ RefVsState.shownRenders (RefVsState.screen (RefVsState.run es w))
    = RefVsState.renderCount (RefVsState.run es w) - 1
  ∧ RefVsState.shownRef (RefVsState.screen (RefVsState.run es w))
    ≤ RefVsState.refCount (RefVsState.run es w).
Proof.
  revert w. induction es as [|e es IH]; intros w H1 H2 H3; [done|].
  change (RefVsState.run (e :: es) w)
    with (RefVsState.run es (RefVsState.step w e)).
  apply IH; destruct e; simpl; lia.
Qed.

(** X13. State cell against refs: after any session the state count is
    the number of state clicks and the ref count the number of ref
    clicks; the effect has run once per render, the first render and
    one per state click; the screen shows the state count, a render
    total that is one less than the renders done, and a ref count that
    is never ahead of the ref; a ref click leaves the screen as it is
    and the next state click brings the ref value on the screen. *)
Theorem ref_changes_do_not_render (es : list RefVsState.Event) :
  RefVsState.stateCount (RefVsState.run es RefVsState.mounted)
  = Z.of_nat (RefVsState.stateClicks es)
  ∧ RefVsState.refCount (RefVsState.run es RefVsState.mounted)
    = Z.of_nat (RefVsState.refClicks es)
  ∧ RefVsState.renderCount (RefVsState.run es RefVsState.mounted)
    = 1 + Z.of_nat (RefVsState.stateClicks es)
  ∧ RefVsState.shownState (RefVsState.screen (RefVsState.run es RefVsState.mounted))
    = Z.of_nat (RefVsState.stateClicks es)
  ∧ RefVsState.shownRenders (RefVsState.screen (RefVsState.run es RefVsState.mounted))
    = Z.of_nat (RefVsState.stateClicks es)
  ∧ RefVsState.shownRef (RefVsState.screen (RefVsState.run es RefVsState.mounted))
    ≤ Z.of_nat (RefVsState.refClicks es)
  ∧ RefVsState.screen (RefVsState.run (es ++ [RefVsState.ClickIncrementRef])
                         RefVsState.mounted)
    = RefVsState.screen (RefVsState.run es RefVsState.mounted)
  ∧ RefVsState.shownRef
      (RefVsState.screen (RefVsState.run (es ++ [RefVsState.ClickIncrementState])
                            RefVsState.mounted))
    = Z.of_nat (RefVsState.refClicks es).
Proof.
  destruct (refVsState_counts es RefVsState.mounted) as (Hs & Hr & Hn).
  destruct (refVsState_screen es RefVsState.mounted) as (Vs & Vn & Vr);
    [done|done|done|].
  simpl in Hs, Hr, Hn.
  split; [lia|]. split; [lia|]. split; [lia|]. split; [lia|].
  split; [lia|]. split; [lia|]. split.
  - unfold RefVsState.run. by rewrite foldl_app.
  - unfold RefVsState.run. rewrite foldl_app. simpl.
    fold (RefVsState.run es RefVsState.mounted). lia.
Qed.

Lemma previous_tracks (w : PreviousValue.World) :
  PreviousValue.reachable w →
  PreviousValue.prevCountRef w = Some (PreviousValue.count w)
  ∧ PreviousValue.current (PreviousValue.screen w) = PreviousValue.count w.
Proof.
  intros [es ->].
  enough (H : ∀ w0,
            PreviousValue.prevCountRef w0 = Some (PreviousValue.count w0)
            ∧ PreviousValue.current (PreviousValue.screen w0) = PreviousValue.count w0 →
            PreviousValue.prevCountRef (PreviousValue.run es w0)
            = Some (PreviousValue.count (PreviousValue.run es w0))
            ∧ PreviousValue.current (PreviousValue.screen (PreviousValue.run es w0))
              = PreviousValue.count (PreviousValue.run es w0))
    by (by apply H).
  induction es as [|e es IH]; intros w0 Hw0; [done|].
  change (PreviousValue.run (e :: es) w0)
    with (PreviousValue.run es (PreviousValue.step w0 e)).
  apply IH. destruct e; simpl; unfold PreviousValue.setCount; by case_decide.
Qed.

(** X14. Previous value in a ref: the first render shows no previous
    value; in every state reached afterwards, a click that changes the
    count shows as previous value the count that was on the screen
    before, with the change line Increased or Decreased accordingly (so
    Increased after +1, Decreased after -1); a click that does not
    change the count (reset at 0) changes nothing at all. *)
Theorem previous_is_the_count_before (w : PreviousValue.World) (e : PreviousValue.Event) :
  PreviousValue.reachable w →
  PreviousValue.previous (PreviousValue.screen PreviousValue.mounted) = None
  ∧ PreviousValue.current (PreviousValue.screen (PreviousValue.step w e))
    = PreviousValue.count (PreviousValue.step w e)
  ∧ (PreviousValue.count (PreviousValue.step w e) ≠ PreviousValue.count w →
       PreviousValue.previous (PreviousValue.screen (PreviousValue.step w e))
       = Some (PreviousValue.current (PreviousValue.screen w))
       ∧ PreviousValue.change (PreviousValue.screen (PreviousValue.step w e))
         = Some (if PreviousValue.count w <? PreviousValue.count (PreviousValue.step w e)
                 then PreviousValue.Increased else PreviousValue.Decreased))
  ∧ (PreviousValue.count (PreviousValue.step w e) = PreviousValue.count w →
       PreviousValue.step w e = w)
  ∧ PreviousValue.change (PreviousValue.screen (PreviousValue.step w PreviousValue.ClickIncrement))
    = Some PreviousValue.Increased
  ∧ PreviousValue.change (PreviousValue.screen (PreviousValue.step w PreviousValue.ClickDecrement))
    = Some PreviousValue.Decreased.
Proof.
  intros Hw. destruct (previous_tracks w Hw) as [Hp Hc].
  assert (Hset : ∀ v, v ≠ PreviousValue.count w →
            PreviousValue.setCount v w
            = PreviousValue.mkWorld v (Some v)
                (PreviousValue.render v (Some (PreviousValue.count w)))).
  { intros v Hv. unfold PreviousValue.setCount. rewrite decide_False by done.
    by rewrite Hp. }
  assert (Hsame : ∀ v, v = PreviousValue.count w → PreviousValue.setCount v w = w).
  { intros v Hv. unfold PreviousValue.setCount. by rewrite decide_True. }
  split; [done|]. split; [|split; [|split; [|split]]].
  - destruct e; simpl; unfold PreviousValue.setCount; by case_decide.
  - intros Hne. rewrite Hc.
    assert (∃ v, PreviousValue.step w e = PreviousValue.setCount v w) as [v Hv]
      by (destruct e; eexists; reflexivity).
    rewrite Hv in *.
    destruct (decide (v = PreviousValue.count w)) as [E|E].
    { rewrite (Hsame v E) in Hne. done. }
    rewrite (Hset v E). simpl. split; [done|].
    destruct (PreviousValue.count w <? v) eqn:E1; [done|].
    destruct (v <? PreviousValue.count w) eqn:E2; [done|]. lia.
  - assert (∃ v, PreviousValue.step w e = PreviousValue.setCount v w) as [v Hv]
      by (destruct e; eexists; reflexivity).
    rewrite Hv. intros E.
    destruct (decide (v = PreviousValue.count w)) as [E'|E']; [by apply Hsame|].
    rewrite (Hset v E') in E. simpl in E. done.
  - simpl. rewrite Hset by lia. simpl.
    destruct (PreviousValue.count w <? PreviousValue.count w + 1) eqn:E; [done|lia].
  - simpl. rewrite Hset by lia. simpl.
    destruct (PreviousValue.count w <? PreviousValue.count w - 1) eqn:E; [lia|].
    destruct (PreviousValue.count w - 1 <? PreviousValue.count w) eqn:E'; [done|lia].
Qed.

Lemma previous_is_the_count_before_witness :
  PreviousValue.reachable
    (PreviousValue.run [PreviousValue.ClickIncrement; PreviousValue.ClickIncrement]
       PreviousValue.mounted)
  ∧ PreviousValue.previous
      (PreviousValue.screen
         (PreviousValue.step
            (PreviousValue.run [PreviousValue.ClickIncrement; PreviousValue.ClickIncrement]
               PreviousValue.mounted)
            PreviousValue.ClickReset))
    = Some 2.
Proof.
  assert (H : PreviousValue.reachable
                (PreviousValue.run [PreviousValue.ClickIncrement;
                                    PreviousValue.ClickIncrement]
                   PreviousValue.mounted)) by (by eexists).
  split; [exact H|].
  destruct (previous_is_the_count_before _ PreviousValue.ClickReset H)
    as (_ & _ & Hch & _).
  assert (Hne : PreviousValue.count
                  (PreviousValue.step
                     (PreviousValue.run [PreviousValue.ClickIncrement;
                                         PreviousValue.ClickIncrement]
                        PreviousValue.mounted)
                     PreviousValue.ClickReset)
                ≠ PreviousValue.count
                    (PreviousValue.run [PreviousValue.ClickIncrement;
                                        PreviousValue.ClickIncrement]
                       PreviousValue.mounted)) by discriminate.
  exact (proj1 (Hch Hne)).
Defined.

End RefProps.

(** ** Timers: the stopwatch and the timer shown on demand *)

Section TimerMoreProps.
#[local] Set Warnings "-clear-no-such-hyp".

(** X15. Stopwatch: in every reachable state, while it is stopped no
    timer callback changes anything (none is active); while it is
    mounted and running the callback of the stored handle adds one
    second; a click on Reset leaves it at 0 seconds, stopped, with no
    interval active; and after unmount no interval is left active. *)
Theorem stopwatch_counts_only_while_running (w : TimerExample.World) (h : positive) :
  TimerExample.reachable w →
  (TimerExample.isRunning (TimerExample.state w) = false →
     TimerExample.step w (TimerExample.Fire h) = w)
  ∧ (TimerExample.mounted w = true →
     TimerExample.isRunning (TimerExample.state w) = true →
     TimerExample.intervalRef w = Some h →
     TimerExample.seconds (TimerExample.state (TimerExample.step w (TimerExample.Fire h)))
     = TimerExample.seconds (TimerExample.state w) + 1)
  ∧ (TimerExample.mounted w = true →
     TimerExample.seconds (TimerExample.state (TimerExample.step w TimerExample.ClickReset)) = 0
     ∧ TimerExample.isRunning (TimerExample.state (TimerExample.step w TimerExample.ClickReset))
       = false
     ∧ TimerExample.active (TimerExample.timers (TimerExample.step w TimerExample.ClickReset))
       = ∅)
  ∧ (TimerExample.mounted w = false →
     TimerExample.active (TimerExample.timers w) = ∅).
Proof.
  intros Hw. apply tracked_reachable in Hw. unfold TimerInvariant.tracked in Hw.
  destruct w as [[secs running] ref [next act] out live].
  unfold TimerExample.step. simpl in *.
  split; [|split; [|split]].
  - intros ->. rewrite andb_false_r in Hw. subst act.
    destruct live; [|done]. rewrite decide_False; [done|set_solver].
  - intros -> -> ->. simpl in Hw. destruct Hw as (h' & [= <-] & ->).
    rewrite decide_True; [done|set_solver].
  - intros ->. split; [done|]. split; [done|].
    destruct running; simpl in Hw.
    + destruct Hw as (h' & -> & ->). simpl. set_solver.
    + subst act. destruct ref; simpl; set_solver.
  - intros ->. done.
Qed.

Lemma stopwatch_counts_only_while_running_witness :
  TimerExample.reachable
    (TimerExample.run [TimerExample.ClickStart; TimerExample.Fire 1] TimerExample.init)
  ∧ TimerExample.seconds
      (TimerExample.state
         (TimerExample.step
            (TimerExample.run [TimerExample.ClickStart; TimerExample.Fire 1]
               TimerExample.init)
            (TimerExample.Fire 1)))
    = 1 + 1.
Proof.
  assert (H : TimerExample.reachable
                (TimerExample.run [TimerExample.ClickStart; TimerExample.Fire 1]
                   TimerExample.init)) by (by eexists).
  split; [exact H|].
  destruct (stopwatch_counts_only_while_running _ 1%positive H) as (_ & Htick & _).
  exact (Htick eq_refl eq_refl eq_refl).
Defined.

Lemma owned_step (w : CleanupEffect.World) (e : CleanupEffect.Event) :
  CleanupEffect.owned w → CleanupEffect.owned (CleanupEffect.step w e).
Proof.
  destruct w as [shown inst [next act] out].
  unfold CleanupEffect.owned. simpl.
  destruct e as [|h]; simpl.
  - destruct inst as [[secs i]|]; simpl; intros [-> ->]; simpl;
      (split; [done|set_solver]).
  - unfold CleanupEffect.fire. simpl.
    case_decide; [|done].
    destruct inst as [[secs i]|]; [|done].
    case_decide; [|done]. simpl. by subst.
Qed.

Lemma owned_reachable (w : CleanupEffect.World) :
  CleanupEffect.reachable w → CleanupEffect.owned w.
Proof.
  intros [es ->].
  enough (H : ∀ w0, CleanupEffect.owned w0 →
                    CleanupEffect.owned (CleanupEffect.run es w0))
    by (apply H; by split).
  induction es as [|e es IH]; intros w0 H0; [done|].
  apply (IH (CleanupEffect.step w0 e)), owned_step, H0.
Qed.

(** X16. Timer shown on demand: in every reachable state the interval
    of the shown timer is the only active one and none is active while
    the timer is hidden; showing the timer starts it at 0 seconds with
    a handle of its own, hiding it leaves no interval, and only the
    callback of the shown timer's interval advances its seconds. *)
Theorem shown_timer_owns_the_only_interval (w : CleanupEffect.World) :
  CleanupEffect.reachable w →
  (size (TimerExample.active (CleanupEffect.timers w)) ≤ 1)%nat
  ∧ (CleanupEffect.showTimer w = true →
       ∃ inst, CleanupEffect.timer w = Some inst
               ∧ TimerExample.active (CleanupEffect.timers w)
                 = {[ CleanupEffect.interval inst ]}
               ∧ CleanupEffect.timer (CleanupEffect.step w
                   (CleanupEffect.Fire (CleanupEffect.interval inst)))
                 = Some (CleanupEffect.mkTimer (CleanupEffect.seconds inst + 1)
                           (CleanupEffect.interval inst))
               ∧ CleanupEffect.timer (CleanupEffect.step w CleanupEffect.ClickToggle) = None
               ∧ TimerExample.active
                   (CleanupEffect.timers (CleanupEffect.step w CleanupEffect.ClickToggle))
                 = ∅)
  ∧ (CleanupEffect.showTimer w = false →
       CleanupEffect.timer w = None
       ∧ TimerExample.active (CleanupEffect.timers w) = ∅
       ∧ (∀ h, CleanupEffect.step w (CleanupEffect.Fire h) = w)
       ∧ CleanupEffect.timer (CleanupEffect.step w CleanupEffect.ClickToggle)
         = Some (CleanupEffect.mkTimer 0
                   (TimerExample.nextHandle (CleanupEffect.timers w)))).
Proof.
  intros Hw. apply owned_reachable in Hw.
  destruct w as [shown inst [next act] out].
  unfold CleanupEffect.owned in Hw. simpl in *.
  destruct inst as [[secs i]|]; destruct Hw as [-> ->].
  - split; [rewrite size_singleton; lia|]. split; [|done].
    intros _. eexists. split; [done|]. split; [done|]. simpl.
    split; [|split; [done|set_solver]].
    unfold CleanupEffect.fire. simpl.
    rewrite decide_True by set_solver. by rewrite decide_True.
  - split; [rewrite size_empty; lia|]. split; [done|].
    intros _. split; [done|]. split; [done|]. split; [|done].
    intros h. unfold CleanupEffect.fire. simpl.
    rewrite decide_False; [done|set_solver].
Qed.

Lemma shown_timer_owns_the_only_interval_witness :
  CleanupEffect.reachable
    (CleanupEffect.run [CleanupEffect.ClickToggle; CleanupEffect.Fire 1;
                        CleanupEffect.ClickToggle; CleanupEffect.ClickToggle]
       CleanupEffect.init)
  ∧ (size (TimerExample.active
             (CleanupEffect.timers
                (CleanupEffect.run [CleanupEffect.ClickToggle; CleanupEffect.Fire 1;
                                    CleanupEffect.ClickToggle; CleanupEffect.ClickToggle]
                   CleanupEffect.init))) ≤ 1)%nat.
Proof.
  assert (H : CleanupEffect.reachable
                (CleanupEffect.run [CleanupEffect.ClickToggle; CleanupEffect.Fire 1;
                                    CleanupEffect.ClickToggle; CleanupEffect.ClickToggle]
                   CleanupEffect.init)) by (by eexists).
  split; [exact H|].
  exact (proj1 (shown_timer_owns_the_only_interval _ H)).
Defined.

End TimerMoreProps.

(** ** Effects and focus *)

Section EffectProps.

(** X17. Effect with a dependency: after the mount and any session of
    count clicks and name changes, the document title is "Count: "
    followed by the count in decimal, the count is the number of clicks,
    and the effect has logged each count from 0 up to it exactly once:
    it ran once per count click and never on a name change. *)
Theorem title_follows_count (title0 : jsstring) (es : list DependencyEffect.Event) :
  DependencyEffect.count (DependencyEffect.run es (DependencyEffect.mounted title0))
  = Z.of_nat (DependencyEffect.increments es)
  ∧ DependencyEffect.title (DependencyEffect.run es (DependencyEffect.mounted title0))
    = lit "Count: "
      ++ lit (pretty (DependencyEffect.count
                        (DependencyEffect.run es (DependencyEffect.mounted title0))))
  ∧ DependencyEffect.console (DependencyEffect.run es (DependencyEffect.mounted title0))
    = Z.of_nat <$> seq 0 (S (DependencyEffect.increments es)).
Proof.
  unfold DependencyEffect.increments.
  induction es as [|e es (IHc & IHt & IHl)] using rev_ind; [done|].
  unfold DependencyEffect.run in *. rewrite foldl_app, filter_app, length_app.
  simpl foldl.
  set (w := foldl DependencyEffect.step (DependencyEffect.mounted title0) es) in *.
  rewrite filter_cons, filter_nil.
  destruct e as [|v]; repeat case_decide; try done.
  - change (length [DependencyEffect.ClickIncrement]) with 1%nat.
    rewrite Nat.add_1_r, (seq_S (S _)), fmap_app, <- IHl.
    unfold DependencyEffect.step, DependencyEffect.effect.
    cbn [DependencyEffect.count DependencyEffect.title DependencyEffect.console
         DependencyEffect.name].
    rewrite IHc. split; [lia|]. split; [done|].
    simpl. do 2 f_equal. lia.
  - change (length []) with 0%nat. rewrite Nat.add_0_r. done.
Qed.

Lemma focus_after (keys : list jsstring) (w : FocusManagement.World) :
  FocusManagement.focused (FocusManagement.run keys w)
  = match FocusManagement.focused w, FocusManagement.enters keys with
    | Some FocusManagement.FirstName, O => Some FocusManagement.FirstName
    | Some FocusManagement.FirstName, S O => Some FocusManagement.LastName
    | Some FocusManagement.FirstName, S (S _) => Some FocusManagement.Email
    | Some FocusManagement.LastName, O => Some FocusManagement.LastName
    | Some FocusManagement.LastName, S _ => Some FocusManagement.Email
    | other, _ => other
    end.
Proof.
  unfold FocusManagement.enters.
  revert w. induction keys as [|key keys IH]; intros [f].
  - simpl. by destruct f as [[]|].
  - change (FocusManagement.run (key :: keys) (FocusManagement.mkWorld f))
      with (FocusManagement.run keys
              (FocusManagement.keyPress key (FocusManagement.mkWorld f))).
    rewrite IH, filter_cons.
    unfold FocusManagement.keyPress, FocusManagement.handleFirstNameKeyPress,
      FocusManagement.handleLastNameKeyPress.
    cbn [FocusManagement.focused].
    destruct (decide (key = lit "Enter")) as [E|E];
      destruct f as [[]|]; cbn [FocusManagement.focused length];
      by destruct (length (filter (λ k, k = lit "Enter") keys)) as [|[|n]].
Qed.

(** X18. Focus by the Enter key: the first input has the focus after
    the mount; of the keys pressed then, only Enter moves the focus,
    the first Enter to the last-name input and the second to the e-mail
    input, where it stays whatever is pressed. *)
Theorem enter_moves_focus_forward (keys : list jsstring) :
  FocusManagement.focused (FocusManagement.run keys FocusManagement.mounted)
  = match FocusManagement.enters keys with
    | O => Some FocusManagement.FirstName
    | S O => Some FocusManagement.LastName
    | S (S _) => Some FocusManagement.Email
    end.
Proof. by rewrite focus_after. Qed.

End EffectProps.

(** ** DataFetchingEffect: responses and the loading flag *)

Section FetchMoreProps.
Import DataFetching FetchSession.

Lemma settle_inFlight (o : Outcome) (w : World) :
  inFlight (settle o w) = inFlight w.
Proof.
  unfold settle, thenChain, onData.
  destruct (responseJson o) as [data|e]; [|done].
  by destruct (getProp (lit "name") data).
Qed.

Lemma settle_data (data : Json) (w : World) :
  data ≠ JNull →
  settle (Response 0 (Some data)) w
  = mkWorld (mkState (Some data) false (userId (state w)))
            (console w ++ [LogFetched (prop (lit "name") data)])
            (inFlight w) (removed w).
Proof.
  intros H. unfold settle, thenChain, onData, prop. simpl.
  by destruct data.
Qed.

(** X19. The status of a response is never read: two responses with the
    same body and different statuses leave the same world.  For a
    component on the page with a fetch in flight, a response whose body
    is a JSON value other than null, whatever its status, is logged by
    its name and takes one fetch out of flight; when the card of that
    value renders, the value becomes the user value, the loading flag
    is cleared and the component stays on the page; when the render
    throws (a field of the card is an object), the cells are left as
    they were and the tree is removed. *)
Theorem response_status_is_ignored
  (w : World) (n : nat) (status status' : Z) (body : option Json) (data : Json) :
  removed w = false → inFlight w = S n → data ≠ JNull →
  step w (Settle (Response status body)) = step w (Settle (Response status' body))
  ∧ console (step w (Settle (Response status (Some data))))
    = console w ++ [LogFetched (prop (lit "name") data)]
  ∧ inFlight (step w (Settle (Response status (Some data)))) = n
  ∧ (render (mkState (Some data) false (userId (state w))) ≠ RenderThrows →
       state (step w (Settle (Response status (Some data))))
       = mkState (Some data) false (userId (state w))
       ∧ removed (step w (Settle (Response status (Some data)))) = false)
  ∧ (render (mkState (Some data) false (userId (state w))) = RenderThrows →
       state (step w (Settle (Response status (Some data)))) = state w
       ∧ removed (step w (Settle (Response status (Some data)))) = true).
Proof.
  intros Hlive Hn Hdata. split; [done|].
  unfold step. rewrite Hlive, Hn.
  change (settle (Response status (Some data)) (setInFlight n w))
    with (settle (Response 0 (Some data)) (setInFlight n w)).
  rewrite (settle_data data _ Hdata). unfold commitRender.
  cbn [state setInFlight console inFlight removed userId].
  destruct (render (mkState (Some data) false (userId (state w)))) eqn:E;
    cbn [state console inFlight removed]; repeat split; try done.
Qed.

Lemma response_status_is_ignored_witness :
  removed aliceShown = false
  ∧ inFlight aliceShown = 1%nat
  ∧ JObject [] ≠ JNull
  ∧ state (step aliceShown (Settle (Response 500 (Some (JObject [])))))
    = mkState (Some (JObject [])) false (IdString (lit "99"))
  ∧ removed (step aliceShown
               (Settle (Response 200
                  (Some (JObject [(lit "name", JObject [])]))))) = true.
Proof.
  assert (Hl : removed aliceShown = false) by reflexivity.
  assert (Hn : inFlight aliceShown = 1%nat) by reflexivity.
  assert (Hd : JObject [] ≠ JNull) by discriminate.
  assert (Hd' : JObject [(lit "name", JObject [])] ≠ JNull) by discriminate.
  split; [exact Hl|]. split; [exact Hn|]. split; [exact Hd|].
  destruct (response_status_is_ignored _ 0 500 500 None _ Hl Hn Hd)
    as (_ & _ & _ & Hok & _).
  destruct (response_status_is_ignored _ 0 200 200 None _ Hl Hn Hd')
    as (_ & _ & _ & _ & Hthrow).
  split.
  - apply Hok. discriminate.
  - apply Hthrow. reflexivity.
Defined.

(** X20. Loading flag and fetches in flight: in every state reached
    after the mount, the loading flag is set only while a fetch is in
    flight, so once every fetch has settled the loading line is gone;
    entering the user id already shown starts nothing, and entering
    another one sets the flag and starts exactly one fetch. *)
Theorem loading_only_while_in_flight (w : World) (v : jsstring) :
  reachable w →
  (inFlight w = 0%nat → loading (state w) = false ∧ render (state w) ≠ ShowLoading)
  ∧ (userId (state w) = IdString v → step w (ChangeUserId v) = w)
  ∧ (userId (state w) ≠ IdString v →
       loading (state (step w (ChangeUserId v))) = true
       ∧ inFlight (step w (ChangeUserId v)) = S (inFlight w)
       ∧ userId (state (step w (ChangeUserId v))) = IdString v
       ∧ user (state (step w (ChangeUserId v))) = user (state w)).
Proof.
  intros Hw. destruct (onPage_reachable w Hw) as [Hinv _].
  destruct Hw as [_ Hlive].
  split; [|split].
  - intros H0. assert (Hl : loading (state w) = false).
    { destruct (loading (state w)); [|done]. by destruct Hinv. }
    split; [done|]. by apply render_not_loading.
  - intros Hid. unfold step. rewrite Hlive. by rewrite decide_True.
  - intros Hid. unfold step. rewrite Hlive, decide_False by done.
    rewrite commitRender_loading by reflexivity. done.
Qed.

Lemma loading_only_while_in_flight_witness :
  reachable (run [Settle NoResponse] (step init Mount))
  ∧ inFlight (run [Settle NoResponse] (step init Mount)) = 0%nat
  ∧ loading (state (run [Settle NoResponse] (step init Mount))) = false.
Proof.
  assert (H : reachable (run [Settle NoResponse] (step init Mount)))
    by (split; [by eexists|reflexivity]).
  assert (H0 : inFlight (run [Settle NoResponse] (step init Mount)) = 0%nat)
    by reflexivity.
  split; [exact H|]. split; [exact H0|].
  destruct (loading_only_while_in_flight _ [] H) as (Hl & _).
  exact (proj1 (Hl H0)).
Defined.

End FetchMoreProps.

(** ** ComplexObjectStateExample: composing the updates *)

Section ComplexObjectMore.
Import ComplexObject.

(** X21. Object state: changing the name replaces the name and leaves
    e-mail, address and preferences as they were; a name change and a
    city change, each from its own render, give the same user in either
    order; two clicks on the notifications button give the user back;
    and entering the city that is already there changes nothing. *)
Theorem object_updates_compose (user : User) (value city' : jsstring) :
  (name (dispatch (updateName value) user) = value
   ∧ email (dispatch (updateName value) user) = email user
   ∧ address (dispatch (updateName value) user) = address user
   ∧ preferences (dispatch (updateName value) user) = preferences user)
  ∧ dispatch (updateCity city') (dispatch (updateName value) user)
    = dispatch (updateName value) (dispatch (updateCity city') user)
  ∧ dispatch toggleNotifications (dispatch toggleNotifications user) = user
  ∧ dispatch (updateCity (city (address user))) user = user.
Proof.
  destruct user as [n e [st c z] [th no]].
  repeat split.
  unfold dispatch, commit, toggleNotifications. simpl.
  by rewrite negb_involutive.
Qed.

End ComplexObjectMore.
